(** * boost::compute::command_queue -- a shallow embedding

    The header [include/boost/compute/command_queue.hpp] wraps the OpenCL
    host API.  The driver is opaque, so it is modelled as an oracle (a
    [backend]) that answers every call with a [response]; the wrapper's
    methods become state-passing functions that append the calls they
    issue to a log and mutate the fields of the queue object.

    Conventions.
    - Native ids ([cl_command_queue], [cl_mem], [cl_event], [cl_kernel],
      [cl_context]) and host pointers are integers, [0] being null.
    - [size_t] is taken to be 64 bits wide; additions written in the
      source on [size_t] wrap accordingly.
    - The header is read with every [CL_VERSION_x_y] macro defined, i.e.
      against OpenCL 2.0 headers, so all version-dependent code is present.
    - [BOOST_ASSERT] is read with assertions enabled: a failed assertion
      ends the call with [AssertionFailed].  The info queries that occur
      only inside assertions ([get_context()], [buffer.size()]) are pure
      reads of the oracle or of the argument records. *)

From stdpp Require Import base numbers list option.

Local Open Scope Z_scope.

(** ** Scalar types and constants of the OpenCL headers *)

Definition cl_int := Z.
Definition handle := Z.
Definition pointer := Z.
Definition size_t := Z.
Definition size3 : Type := size_t * size_t * size_t.
Definition wait_list := list handle.
Definition event := handle.

Definition CL_SUCCESS : cl_int := 0.
Definition CL_INVALID_DEVICE : cl_int := -33.
Definition CL_COMPLETE : cl_int := 0.

(** [command_queue::map_flags] *)
Definition map_read : Z := 1.
Definition map_write : Z := 2.

Definition SIZE_MODULUS : Z := 2 ^ 64.

(** [static_cast<cl_uint>(n)] *)
Definition cl_uint_of (n : Z) : Z := n mod 2 ^ 32.

(** [a + b] on [size_t] operands. *)
Definition size_add (a b : size_t) : size_t := (a + b) mod SIZE_MODULUS.

(** ** Argument objects

    [buffer], [image_object], [kernel] and [memory_object] are declared in
    other headers; only the accessors used by this file appear here, as
    fields holding the value the accessor returns. *)

Record memory_object := {
  mem_get : handle;
  mem_context : handle
}.

Record buffer := {
  buffer_get : handle;
  buffer_size : size_t;
  buffer_context : handle
}.

Record image_object := {
  image_get : handle;
  image_context : handle;
  image_width : size_t;
  image_height : size_t;
  image_depth : size_t;
  image_element_size : size_t
}.

Record kernel := {
  kernel_get : handle;
  kernel_context : handle
}.

(** An [image_object] passed where a [const memory_object &] is expected. *)
Definition image_as_memory_object (image : image_object) : memory_object :=
  {| mem_get := image_get image; mem_context := image_context image |}.

(** ** Calls that leave the wrapper

    One constructor per entry point, arguments in the order of the C
    prototype.  A wait list stands for the pair
    [events.size(), events.get_event_ptr()]; the last argument [ev] tells
    whether a non-null [cl_event *] was passed.  [walk_elemets] records an
    invocation of the caller's per-element function, with its arguments
    [(pElem, x, y, z)] collected in a [visit]. *)

Record visit := {
  visit_pElem : pointer;
  visit_w : size_t;
  visit_h : size_t;
  visit_d : size_t
}.

Inductive action :=
| clRetainCommandQueue (q : handle)
| clReleaseCommandQueue (q : handle)
| device_get_version (q : handle)
| clEnqueueReadBuffer (q mem : handle) (blocking : bool)
    (offset size : size_t) (host_ptr : pointer) (wait : wait_list) (ev : bool)
| clEnqueueReadBufferRect (q mem : handle) (blocking : bool)
    (buffer_origin host_origin region : size3)
    (buffer_row_pitch buffer_slice_pitch host_row_pitch host_slice_pitch : size_t)
    (host_ptr : pointer) (wait : wait_list) (ev : bool)
| clEnqueueWriteBuffer (q mem : handle) (blocking : bool)
    (offset size : size_t) (host_ptr : pointer) (wait : wait_list) (ev : bool)
| clEnqueueWriteBufferRect (q mem : handle) (blocking : bool)
    (buffer_origin host_origin region : size3)
    (buffer_row_pitch buffer_slice_pitch host_row_pitch host_slice_pitch : size_t)
    (host_ptr : pointer) (wait : wait_list) (ev : bool)
| clEnqueueCopyBuffer (q src dst : handle)
    (src_offset dst_offset size : size_t) (wait : wait_list) (ev : bool)
| clEnqueueCopyBufferRect (q src dst : handle)
    (src_origin dst_origin region : size3)
    (buffer_row_pitch buffer_slice_pitch host_row_pitch host_slice_pitch : size_t)
    (wait : wait_list) (ev : bool)
| clEnqueueFillBuffer (q mem : handle) (pattern : pointer)
    (pattern_size offset size : size_t) (wait : wait_list) (ev : bool)
| clEnqueueMapBuffer (q mem : handle) (blocking : bool) (flags : Z)
    (offset size : size_t) (wait : wait_list) (ev : bool)
| clEnqueueMapImage (q image : handle) (blocking : bool) (flags : Z)
    (origin region : size3) (wait : wait_list) (ev : bool)
| clEnqueueUnmapMemObject (q mem : handle) (mapped_ptr : pointer)
    (wait : wait_list) (ev : bool)
| clEnqueueFillImage (q image : handle) (fill_color : pointer)
    (origin region : size3) (wait : wait_list) (ev : bool)
| clEnqueueMigrateMemObjects (q : handle) (num_mem_objects : Z)
    (mem_objects : pointer) (flags : Z) (wait : wait_list) (ev : bool)
| clEnqueueNDRangeKernel (q k : handle) (work_dim : Z)
    (global_work_offset global_work_size local_work_size : option (list size_t))
    (wait : wait_list) (ev : bool)
| clEnqueueTask (q k : handle) (wait : wait_list) (ev : bool)
| clEnqueueBarrier (q : handle)
| clEnqueueBarrierWithWaitList (q : handle) (wait : wait_list) (ev : bool)
| clEnqueueMarker (q : handle) (ev : bool)
| clEnqueueMarkerWithWaitList (q : handle) (wait : wait_list) (ev : bool)
| clEnqueueSVMMemcpy (q : handle) (blocking : bool) (dst_ptr src_ptr : pointer)
    (size : size_t) (wait : wait_list) (ev : bool)
| clEnqueueSVMMemFill (q : handle) (svm_ptr pattern : pointer)
    (pattern_size size : size_t) (wait : wait_list) (ev : bool)
| clEnqueueSVMFree (q : handle) (num_svm_pointers : Z) (svm_pointers : list pointer)
    (pfn_free_func user_data : pointer) (wait : wait_list) (ev : bool)
| clEnqueueSVMMap (q : handle) (blocking : bool) (flags : Z) (svm_ptr : pointer)
    (size : size_t) (wait : wait_list) (ev : bool)
| clEnqueueSVMUnmap (q : handle) (svm_ptr : pointer) (wait : wait_list) (ev : bool)
| clCreateUserEvent (context : handle)
| clSetUserEventStatus (ev : handle) (status : cl_int)
| clSetEventCallback (ev : handle) (callback : list visit) (user_ev : handle)
| walk_elemets (v : visit).

(** What the driver hands back for one call: the status code, the event
    written through a non-null event pointer, and for the map calls the
    mapped address with the two pitches. *)
Record response := {
  status : cl_int;
  event_out : handle;
  mapped : pointer;
  row_pitch_out : size_t;
  slice_pitch_out : size_t
}.

(** The driver.  Its answer may depend on everything issued so far. *)
Record backend := {
  respond : list action -> action -> response;
  queue_context : handle -> handle;
  queue_device_version : handle -> Z
}.

(** ** The queue object and the result of a method call *)

Record command_queue := {
  m_queue : handle;
  m_version : Z
}.

Record state := {
  this : command_queue;
  log : list action
}.

(** [opencl_error] is the only exception class this header throws. *)
Inductive exn :=
| opencl_error (error_code : cl_int).

Inductive outcome (A : Type) :=
| Returned (a : A)
| Thrown (e : exn)
| AssertionFailed.

Arguments Returned {A} a.
Arguments Thrown {A} e.
Arguments AssertionFailed {A}.

Definition M (A : Type) : Type := state -> outcome A * state.

Definition ret {A} (a : A) : M A := fun st => (Returned a, st).

Definition bind {A B} (m : M A) (f : A -> M B) : M B :=
  fun st =>
    match m st with
    | (Returned a, st') => f a st'
    | (Thrown e, st') => (Thrown e, st')
    | (AssertionFailed, st') => (AssertionFailed, st')
    end.

Declare Scope cq_scope.
Delimit Scope cq_scope with cq.
Notation "'let*' x ':=' c1 'in' c2" := (bind c1 (fun x => c2))
  (at level 10, x name, c1 at level 100, c2 at level 200) : cq_scope.
Notation "c1 ';;;' c2" := (bind c1 (fun _ => c2))
  (at level 100, c2 at level 200, right associativity) : cq_scope.
Local Open Scope cq_scope.

Definition BOOST_ASSERT (cond : bool) : M unit :=
  fun st => if cond then (Returned tt, st) else (AssertionFailed, st).

Definition BOOST_THROW_EXCEPTION {A} (e : exn) : M A :=
  fun st => (Thrown e, st).

Definition nonzero (x : Z) : bool := negb (x =? 0).

(** [event_ ? CL_FALSE : CL_TRUE] *)
Definition blocking_flag (event_ : option event) : bool :=
  match event_ with Some _ => false | None => true end.

(** [event_ ? &event_->get() : NULL], as the flag stored in the log. *)
Definition event_ptr (event_ : option event) : bool :=
  match event_ with Some _ => true | None => false end.

(** The event object behind [event_] once the driver has written to it. *)
Definition event_written (event_ : option event) (r : response) : option event :=
  match event_ with Some _ => Some (event_out r) | None => None end.

Section Methods.

Variable be : backend.

(** Issue one call: the driver answers from the history, the call is logged. *)
Definition cl (c : action) : M response :=
  fun st => (Returned (respond be (log st) c),
             {| this := this st; log := log st ++ [c] |}).

Definition get_m_queue : M handle := fun st => (Returned (m_queue (this st)), st).

(** [get_context()]: [clGetCommandQueueInfo(CL_QUEUE_CONTEXT)]. *)
Definition get_context : M handle :=
  fun st => (Returned (queue_context be (m_queue (this st))), st).

(** [if(ret != CL_SUCCESS) BOOST_THROW_EXCEPTION(opencl_error(ret));] *)
Definition check_ret (r : cl_int) : M unit :=
  if negb (r =? CL_SUCCESS) then BOOST_THROW_EXCEPTION (opencl_error r) else ret tt.

(** [get_version()]; [m_version] is [mutable], the device is asked through
    [get_device().get_version()]. *)
Definition get_version : M Z :=
  fun st =>
    if m_version (this st) =? 0 then
      let q := m_queue (this st) in
      let v := queue_device_version be q in
      (Returned v,
       {| this := {| m_queue := q; m_version := v |};
          log := log st ++ [device_get_version q] |})
    else (Returned (m_version (this st)), st).

(** [if (get_version() < minimum)
       BOOST_THROW_EXCEPTION(opencl_error(CL_INVALID_DEVICE));] *)
Definition require_version (minimum : Z) : M unit :=
  let* v := get_version in
  if v <? minimum then BOOST_THROW_EXCEPTION (opencl_error CL_INVALID_DEVICE)
  else ret tt.

(** *** Buffers *)

Definition enqueue_read_buffer (buffer_ : buffer) (offset size : size_t)
    (host_ptr : pointer) (events : wait_list) (event_ : option event)
    : M (option event) :=
  let* q := get_m_queue in
  BOOST_ASSERT (nonzero q) ;;;
  BOOST_ASSERT (size <=? buffer_size buffer_) ;;;
  let* ctx := get_context in
  BOOST_ASSERT (buffer_context buffer_ =? ctx) ;;;
  BOOST_ASSERT (nonzero host_ptr) ;;;
  let* r := cl (clEnqueueReadBuffer q (buffer_get buffer_) (blocking_flag event_)
                  offset size host_ptr events (event_ptr event_)) in
  check_ret (status r) ;;;
  ret (event_written event_ r).

Definition enqueue_read_buffer_async (buffer_ : buffer) (offset size : size_t)
    (host_ptr : pointer) (events : wait_list) : M event :=
  let event_ : event := 0 in
  let* e := enqueue_read_buffer buffer_ offset size host_ptr events (Some event_) in
  ret (default event_ e).

Definition enqueue_read_buffer_rect (buffer_ : buffer)
    (buffer_origin host_origin region : size3)
    (buffer_row_pitch buffer_slice_pitch host_row_pitch host_slice_pitch : size_t)
    (host_ptr : pointer) (events : wait_list) (event_ : option event)
    : M (option event) :=
  let* q := get_m_queue in
  BOOST_ASSERT (nonzero q) ;;;
  let* ctx := get_context in
  BOOST_ASSERT (buffer_context buffer_ =? ctx) ;;;
  BOOST_ASSERT (nonzero host_ptr) ;;;
  require_version 110 ;;;
  let* r := cl (clEnqueueReadBufferRect q (buffer_get buffer_) (blocking_flag event_)
                  buffer_origin host_origin region
                  buffer_row_pitch buffer_slice_pitch host_row_pitch host_slice_pitch
                  host_ptr events (event_ptr event_)) in
  check_ret (status r) ;;;
  ret (event_written event_ r).

Definition enqueue_write_buffer (buffer_ : buffer) (offset size : size_t)
    (host_ptr : pointer) (events : wait_list) (event_ : option event)
    : M (option event) :=
  let* q := get_m_queue in
  BOOST_ASSERT (nonzero q) ;;;
  BOOST_ASSERT (size <=? buffer_size buffer_) ;;;
  let* ctx := get_context in
  BOOST_ASSERT (buffer_context buffer_ =? ctx) ;;;
  BOOST_ASSERT (nonzero host_ptr) ;;;
  let* r := cl (clEnqueueWriteBuffer q (buffer_get buffer_) (blocking_flag event_)
                  offset size host_ptr events (event_ptr event_)) in
  check_ret (status r) ;;;
  ret (event_written event_ r).

Definition enqueue_write_buffer_async (buffer_ : buffer) (offset size : size_t)
    (host_ptr : pointer) (events : wait_list) : M event :=
  let event_ : event := 0 in
  let* e := enqueue_write_buffer buffer_ offset size host_ptr events (Some event_) in
  ret (default event_ e).

Definition enqueue_write_buffer_rect (buffer_ : buffer)
    (buffer_origin host_origin region : size3)
    (buffer_row_pitch buffer_slice_pitch host_row_pitch host_slice_pitch : size_t)
    (host_ptr : pointer) (events : wait_list) (event_ : option event)
    : M (option event) :=
  let* q := get_m_queue in
  BOOST_ASSERT (nonzero q) ;;;
  let* ctx := get_context in
  BOOST_ASSERT (buffer_context buffer_ =? ctx) ;;;
  BOOST_ASSERT (nonzero host_ptr) ;;;
  require_version 110 ;;;
  let* r := cl (clEnqueueWriteBufferRect q (buffer_get buffer_) (blocking_flag event_)
                  buffer_origin host_origin region
                  buffer_row_pitch buffer_slice_pitch host_row_pitch host_slice_pitch
                  host_ptr events (event_ptr event_)) in
  check_ret (status r) ;;;
  ret (event_written event_ r).

Definition enqueue_copy_buffer (src_buffer dst_buffer : buffer)
    (src_offset dst_offset size : size_t)
    (events : wait_list) (event_ : option event) : M (option event) :=
  let* q := get_m_queue in
  BOOST_ASSERT (nonzero q) ;;;
  BOOST_ASSERT (size_add src_offset size <=? buffer_size src_buffer) ;;;
  BOOST_ASSERT (size_add dst_offset size <=? buffer_size dst_buffer) ;;;
  let* ctx := get_context in
  BOOST_ASSERT (buffer_context src_buffer =? ctx) ;;;
  let* ctx' := get_context in
  BOOST_ASSERT (buffer_context dst_buffer =? ctx') ;;;
  let* r := cl (clEnqueueCopyBuffer q (buffer_get src_buffer) (buffer_get dst_buffer)
                  src_offset dst_offset size events (event_ptr event_)) in
  check_ret (status r) ;;;
  ret (event_written event_ r).

Definition enqueue_copy_buffer_async (src_buffer dst_buffer : buffer)
    (src_offset dst_offset size : size_t) (events : wait_list) : M event :=
  let event_ : event := 0 in
  let* e := enqueue_copy_buffer src_buffer dst_buffer src_offset dst_offset size
              events (Some event_) in
  ret (default event_ e).

Definition enqueue_copy_buffer_rect (src_buffer dst_buffer : buffer)
    (src_origin dst_origin region : size3)
    (buffer_row_pitch buffer_slice_pitch host_row_pitch host_slice_pitch : size_t)
    (events : wait_list) (event_ : option event) : M (option event) :=
  let* q := get_m_queue in
  BOOST_ASSERT (nonzero q) ;;;
  let* ctx := get_context in
  BOOST_ASSERT (buffer_context src_buffer =? ctx) ;;;
  let* ctx' := get_context in
  BOOST_ASSERT (buffer_context dst_buffer =? ctx') ;;;
  require_version 110 ;;;
  let* r := cl (clEnqueueCopyBufferRect q (buffer_get src_buffer) (buffer_get dst_buffer)
                  src_origin dst_origin region
                  buffer_row_pitch buffer_slice_pitch host_row_pitch host_slice_pitch
                  events (event_ptr event_)) in
  check_ret (status r) ;;;
  ret (event_written event_ r).

Definition enqueue_fill_buffer (buffer_ : buffer) (pattern : pointer)
    (pattern_size offset size : size_t)
    (events : wait_list) (event_ : option event) : M (option event) :=
  let* q := get_m_queue in
  BOOST_ASSERT (nonzero q) ;;;
  BOOST_ASSERT (size_add offset size <=? buffer_size buffer_) ;;;
  let* ctx := get_context in
  BOOST_ASSERT (buffer_context buffer_ =? ctx) ;;;
  require_version 120 ;;;
  let* r := cl (clEnqueueFillBuffer q (buffer_get buffer_) pattern pattern_size
                  offset size events (event_ptr event_)) in
  check_ret (status r) ;;;
  ret (event_written event_ r).

Definition enqueue_fill_buffer_async (buffer_ : buffer) (pattern : pointer)
    (pattern_size offset size : size_t) (events : wait_list) : M event :=
  let event_ : event := 0 in
  let* e := enqueue_fill_buffer buffer_ pattern pattern_size offset size
              events (Some event_) in
  ret (default event_ e).

(** Returns the mapped pointer together with the event object. *)
Definition enqueue_map_buffer (buffer_ : buffer) (flags : Z) (offset size : size_t)
    (events : wait_list) (event_ : option event) : M (pointer * option event) :=
  let* q := get_m_queue in
  BOOST_ASSERT (nonzero q) ;;;
  BOOST_ASSERT (size_add offset size <=? buffer_size buffer_) ;;;
  let* ctx := get_context in
  BOOST_ASSERT (buffer_context buffer_ =? ctx) ;;;
  let* r := cl (clEnqueueMapBuffer q (buffer_get buffer_) (blocking_flag event_)
                  flags offset size events (event_ptr event_)) in
  check_ret (status r) ;;;
  ret (mapped r, event_written event_ r).

(** *** Images *)

Record mapping := {
  map_pointer : pointer;
  map_row_pitch : size_t;
  map_slice_pitch : size_t;
  map_event : option event
}.

(** The pointer overload; [row_pitch] and [slice_pitch] are the values the
    driver stores through the two out-pointers. *)
Definition enqueue_map_image (image : image_object) (flags : Z)
    (origin region : size3)
    (events : wait_list) (event_ : option event) : M mapping :=
  let* q := get_m_queue in
  BOOST_ASSERT (nonzero q) ;;;
  let* ctx := get_context in
  BOOST_ASSERT (image_context image =? ctx) ;;;
  let* r := cl (clEnqueueMapImage q (image_get image) (blocking_flag event_)
                  flags origin region events (event_ptr event_)) in
  check_ret (status r) ;;;
  ret {| map_pointer := mapped r;
         map_row_pitch := row_pitch_out r;
         map_slice_pitch := slice_pitch_out r;
         map_event := event_written event_ r |}.

Definition enqueue_unmap_mem_object (mem : handle) (mapped_ptr : pointer)
    (events : wait_list) (event_ : option event) : M (option event) :=
  let* q := get_m_queue in
  BOOST_ASSERT (nonzero q) ;;;
  let* r := cl (clEnqueueUnmapMemObject q mem mapped_ptr events (event_ptr event_)) in
  check_ret (status r) ;;;
  ret (event_written event_ r).

Definition enqueue_unmap_buffer (mem_object : memory_object) (mapped_ptr : pointer)
    (events : wait_list) (event_ : option event) : M (option event) :=
  let* ctx := get_context in
  BOOST_ASSERT (mem_context mem_object =? ctx) ;;;
  enqueue_unmap_mem_object (mem_get mem_object) mapped_ptr events event_.

End Methods.

(** *** The element walk

    [for(size_t i = lo; i < hi; ++i) body(i)], threading the variables the
    body updates.  The counter stays below [hi], so it never wraps. *)

Fixpoint for_loop {S : Type} (n : nat) (i : size_t) (body : size_t -> S -> S) (s : S) : S :=
  match n with
  | O => s
  | Datatypes.S n' => for_loop n' (i + 1) body (body i s)
  end.

Definition for_range {S : Type} (lo hi : size_t) (body : size_t -> S -> S) (s : S) : S :=
  for_loop (Z.to_nat (hi - lo)) lo body s.

(** The body of [walk_image::operator()] and of the lambda [func]: the
    three nested loops.  The result lists the invocations
    [walk_elemets(pElem, w, h, d)] in the order they happen.  The
    running pointers [pImage2D], [pImage1D] and [pElem] are the first
    component of each loop's state. *)
Definition walk_image (pImage3D : pointer) (origin3 region3 : size3)
    (row_pitch slice_pitch element_size : size_t) : list visit :=
  let '(o0, o1, o2) := origin3 in
  let '(r0, r1, r2) := region3 in
  snd (for_range o2 r2
         (fun d '(pImage2D, out) =>
            let '(_, out1) :=
              for_range o1 r1
                (fun h '(pImage1D, out) =>
                   let '(_, out2) :=
                     for_range o0 r0
                       (fun w '(pElem, out) =>
                          (pElem + element_size,
                           out ++ [{| visit_pElem := pElem; visit_w := w;
                                      visit_h := h; visit_d := d |}]))
                       (pImage1D, out) in
                   (pImage1D + row_pitch, out2))
                (pImage2D, out) in
            (pImage2D + slice_pitch, out1))
         (pImage3D, [])).

Section Walk.

Variable be : backend.

(** Log the invocations of the caller's function, one by one. *)
Definition call_walk_elemets (vs : list visit) : M unit :=
  fun st => (Returned tt, {| this := this st; log := log st ++ map walk_elemets vs |}).

(** [user_event(get_context())], after [user_event.hpp]: the constructor
    throws when no event came back. *)
Definition create_user_event : M event :=
  let* ctx := get_context be in
  let* r := cl be (clCreateUserEvent ctx) in
  if event_out r =? 0 then BOOST_THROW_EXCEPTION (opencl_error (status r))
  else ret (event_out r).

(** What [func] does when it runs as the map event's callback: the walk,
    then [user_ev.set_status(event::complete)]. *)
Definition callback_actions (vs : list visit) (user_ev : event) : list action :=
  map walk_elemets vs ++ [clSetUserEventStatus user_ev CL_COMPLETE].

(** Modelled from the spec: [pmap_event->set_callback(func)] is defined in
    [event.hpp], which is not among the sources.  The walk and the
    completion of the user event are handed to the driver with
    [clSetEventCallback], to run once the map is done; by the propagation
    policy of the specification -- a backend call that reports a
    non-success status fails at once with the error carrying that status,
    nothing being suppressed -- a registration the driver rejects is
    thrown as [opencl_error]. *)
Definition set_callback (map_event_ : event) (vs : list visit) (user_ev : event)
    : M unit :=
  let* r := cl be (clSetEventCallback map_event_ vs user_ev) in
  check_ret (status r).

Definition enqueue_walk_image (image : image_object) (flags : Z)
    (origin region : option size3)
    (events : wait_list) (pevent : option event) : M (option event) :=
  let* q := get_m_queue in
  BOOST_ASSERT (nonzero q) ;;;
  let* ctx := get_context be in
  BOOST_ASSERT (image_context image =? ctx) ;;;
  let origin3 : size3 := (0, 0, 0) in
  let region3 : size3 :=
    (image_width image, Z.max 1 (image_height image), Z.max 1 (image_depth image)) in
  let origin3 := match origin with Some o => o | None => origin3 end in
  let region3 := match region with Some r => r | None => region3 end in
  match pevent with
  | Some _ =>
      let* user_ev := create_user_event in
      let unmap_wait : wait_list := [user_ev] in
      let* m := enqueue_map_image be image flags origin3 region3 events (Some 0) in
      let pImage3D := map_pointer m in
      let element_size := image_element_size image in
      let func := walk_image pImage3D origin3 region3
                    (map_row_pitch m) (map_slice_pitch m) element_size in
      set_callback (default 0 (map_event m)) func user_ev ;;;
      enqueue_unmap_buffer be (image_as_memory_object image) pImage3D unmap_wait pevent
  | None =>
      let unmap_wait : wait_list := [] in
      let* m := enqueue_map_image be image flags origin3 region3 events None in
      let pImage3D := map_pointer m in
      let element_size := image_element_size image in
      let func := walk_image pImage3D origin3 region3
                    (map_row_pitch m) (map_slice_pitch m) element_size in
      call_walk_elemets func ;;;
      enqueue_unmap_buffer be (image_as_memory_object image) pImage3D unmap_wait pevent
  end.

(** The per-element function is [fillc], which copies [element_size] bytes
    of [fill_color] to [pelem]; its invocations are what the log keeps. *)
Definition enqueue_rawfill_image_walking (image : image_object) (fill_color : pointer)
    (origin region : option size3)
    (events : wait_list) (event_ : option event) : M (option event) :=
  enqueue_walk_image image map_write origin region events event_.

End Walk.

Section Dispatch.

Variable be : backend.

(** *** Fill and migrate (OpenCL 1.2) *)

Definition enqueue_fill_image (image : image_object) (fill_color : pointer)
    (origin region : size3)
    (events : wait_list) (event_ : option event) : M (option event) :=
  let* v := get_version be in
  if v <? 120 then BOOST_THROW_EXCEPTION (opencl_error CL_INVALID_DEVICE)
  else
    let* q := get_m_queue in
    BOOST_ASSERT (nonzero q) ;;;
    let* ctx := get_context be in
    BOOST_ASSERT (image_context image =? ctx) ;;;
    let* r := cl be (clEnqueueFillImage q (image_get image) fill_color
                       origin region events (event_ptr event_)) in
    check_ret (status r) ;;;
    ret (event_written event_ r).

Definition enqueue_migrate_memory_objects (num_mem_objects : Z)
    (mem_objects : pointer) (flags : Z)
    (events : wait_list) (event_ : option event) : M (option event) :=
  let* q := get_m_queue in
  BOOST_ASSERT (nonzero q) ;;;
  require_version be 120 ;;;
  let* r := cl be (clEnqueueMigrateMemObjects q num_mem_objects mem_objects flags
                     events (event_ptr event_)) in
  check_ret (status r) ;;;
  ret (event_written event_ r).

(** *** Kernels

    A [const size_t *] argument is [None] when null and otherwise the array
    it points to. *)

Definition enqueue_nd_range_kernel (kernel_ : kernel) (work_dim : size_t)
    (global_work_offset global_work_size local_work_size : option (list size_t))
    (events : wait_list) (event_ : option event) : M (option event) :=
  let* q := get_m_queue in
  BOOST_ASSERT (nonzero q) ;;;
  BOOST_ASSERT (0 <? work_dim) ;;;
  let* ctx := get_context be in
  BOOST_ASSERT (kernel_context kernel_ =? ctx) ;;;
  let* r := cl be (clEnqueueNDRangeKernel q (kernel_get kernel_) (cl_uint_of work_dim)
                     global_work_offset global_work_size local_work_size
                     events (event_ptr event_)) in
  check_ret (status r) ;;;
  ret (event_written event_ r).

Definition enqueue_nd_range_kernel_async (kernel_ : kernel) (work_dim : size_t)
    (global_work_offset global_work_size local_work_size : option (list size_t))
    (events : wait_list) : M event :=
  let event_ : event := 0 in
  let* e := enqueue_nd_range_kernel kernel_ work_dim
              global_work_offset global_work_size local_work_size
              events (Some event_) in
  ret (default event_ e).

Definition enqueue_1d_range_kernel (kernel_ : kernel)
    (global_work_offset global_work_size local_work_size : size_t)
    (events : wait_list) (event_ : option event) : M (option event) :=
  enqueue_nd_range_kernel kernel_ 1
    (Some [global_work_offset]) (Some [global_work_size])
    (if nonzero local_work_size then Some [local_work_size] else None)
    events event_.

Definition enqueue_1d_range_kernel_async (kernel_ : kernel)
    (global_work_offset global_work_size local_work_size : size_t)
    (events : wait_list) : M event :=
  let event_ : event := 0 in
  let* e := enqueue_1d_range_kernel kernel_
              global_work_offset global_work_size local_work_size
              events (Some event_) in
  ret (default event_ e).

Definition enqueue_task (kernel_ : kernel)
    (events : wait_list) (event_ : option event) : M (option event) :=
  let* q := get_m_queue in
  BOOST_ASSERT (nonzero q) ;;;
  let* ctx := get_context be in
  BOOST_ASSERT (kernel_context kernel_ =? ctx) ;;;
  let* v := get_version be in
  let* r :=
    if 200 <=? v then
      let one : size_t := 1 in
      cl be (clEnqueueNDRangeKernel q (kernel_get kernel_) 1 None (Some [one]) (Some [one])
               events (event_ptr event_))
    else
      cl be (clEnqueueTask q (kernel_get kernel_) events (event_ptr event_)) in
  check_ret (status r) ;;;
  ret (event_written event_ r).

(** *** Barriers and markers *)

(** [enqueue_barrier()]: the value of the driver call is discarded. *)
Definition enqueue_barrier : M unit :=
  let* q := get_m_queue in
  BOOST_ASSERT (nonzero q) ;;;
  let* v := get_version be in
  let* _r :=
    if 120 <=? v then cl be (clEnqueueBarrierWithWaitList q [] false)
    else cl be (clEnqueueBarrier q) in
  ret tt.

(** The overload of [enqueue_barrier] taking a wait list and an event pointer;
    the value of the driver call is discarded here too. *)
Definition enqueue_barrier_events (events : wait_list) (event_ : option event)
    : M (option event) :=
  let* q := get_m_queue in
  BOOST_ASSERT (nonzero q) ;;;
  require_version be 120 ;;;
  let* r := cl be (clEnqueueBarrierWithWaitList q events (event_ptr event_)) in
  ret (event_written event_ r).

(** The overload of [enqueue_marker] taking only an event pointer. *)
Definition enqueue_marker (event_ : option event) : M (option event) :=
  let* q := get_m_queue in
  let* v := get_version be in
  let* r :=
    if 120 <=? v then cl be (clEnqueueMarkerWithWaitList q [] (event_ptr event_))
    else cl be (clEnqueueMarker q (event_ptr event_)) in
  check_ret (status r) ;;;
  ret (event_written event_ r).

(** The overload of [enqueue_marker] taking a wait list and an event pointer. *)
Definition enqueue_marker_events (events : wait_list) (event_ : option event)
    : M (option event) :=
  require_version be 120 ;;;
  let* q := get_m_queue in
  let* r := cl be (clEnqueueMarkerWithWaitList q events (event_ptr event_)) in
  check_ret (status r) ;;;
  ret (event_written event_ r).

(** *** Shared virtual memory (OpenCL 2.0) *)

Definition enqueue_svm_memcpy (dst_ptr src_ptr : pointer) (size : size_t)
    (events : wait_list) (event_ : option event) : M (option event) :=
  require_version be 200 ;;;
  let* q := get_m_queue in
  let* r := cl be (clEnqueueSVMMemcpy q (blocking_flag event_) dst_ptr src_ptr size
                     events (event_ptr event_)) in
  check_ret (status r) ;;;
  ret (event_written event_ r).

Definition enqueue_svm_memcpy_async (dst_ptr src_ptr : pointer) (size : size_t)
    (events : wait_list) : M event :=
  let event_ : event := 0 in
  let* e := enqueue_svm_memcpy dst_ptr src_ptr size events (Some event_) in
  ret (default event_ e).

Definition enqueue_svm_fill (svm_ptr pattern : pointer) (pattern_size size : size_t)
    (events : wait_list) (event_ : option event) : M (option event) :=
  require_version be 200 ;;;
  let* q := get_m_queue in
  let* r := cl be (clEnqueueSVMMemFill q svm_ptr pattern pattern_size size
                     events (event_ptr event_)) in
  check_ret (status r) ;;;
  ret (event_written event_ r).

Definition enqueue_svm_free (svm_ptr : pointer)
    (events : wait_list) (event_ : option event) : M (option event) :=
  require_version be 200 ;;;
  let* q := get_m_queue in
  let* r := cl be (clEnqueueSVMFree q 1 [svm_ptr] 0 0 events (event_ptr event_)) in
  check_ret (status r) ;;;
  ret (event_written event_ r).

Definition enqueue_svm_map (svm_ptr : pointer) (size : size_t) (flags : Z)
    (events : wait_list) (event_ : option event) : M (option event) :=
  require_version be 200 ;;;
  let* q := get_m_queue in
  let* r := cl be (clEnqueueSVMMap q (blocking_flag event_) flags svm_ptr size
                     events (event_ptr event_)) in
  check_ret (status r) ;;;
  ret (event_written event_ r).

Definition enqueue_svm_unmap (svm_ptr : pointer)
    (events : wait_list) (event_ : option event) : M (option event) :=
  require_version be 200 ;;;
  let* q := get_m_queue in
  let* r := cl be (clEnqueueSVMUnmap q svm_ptr events (event_ptr event_)) in
  check_ret (status r) ;;;
  ret (event_written event_ r).

End Dispatch.

(** ** Construction, copy, move and destruction

    Several [command_queue] objects live side by side and are told apart by
    their addresses, which is what [this != &other] compares.  The [heap]
    maps an address (an index) to the object stored there, [None] once the
    object has been destroyed.  An operation yields [None] where the C++
    program would be undefined (an object used after its destruction) or
    would stop on the assertion inside the destructor. *)

Record heap := {
  objects : list (option command_queue);
  calls : list action
}.

Definition object_at (h : heap) (a : nat) : option command_queue :=
  match objects h !! a with
  | Some (Some o) => Some o
  | _ => None
  end.

(** [if(m_queue){ clRetainCommandQueue(m_queue); }] *)
Definition retain_if_set (q : handle) : list action :=
  if nonzero q then [clRetainCommandQueue q] else [].

(** [if(m_queue){ clReleaseCommandQueue(m_queue); }] *)
Definition release_if_set (q : handle) : list action :=
  if nonzero q then [clReleaseCommandQueue q] else [].

(** Place a freshly constructed object at the next free address. *)
Definition allocate (o : command_queue) (cs : list action) (h : heap) : nat * heap :=
  (length (objects h),
   {| objects := objects h ++ [Some o]; calls := calls h ++ cs |}).

(** [command_queue()] *)
Definition construct_null (h : heap) : nat * heap :=
  allocate {| m_queue := 0; m_version := 0 |} [] h.

(** [command_queue(cl_command_queue queue, bool retain = true)] *)
Definition construct_from (queue : handle) (retain : bool) (h : heap) : nat * heap :=
  allocate {| m_queue := queue; m_version := 0 |}
    (if nonzero queue && retain then [clRetainCommandQueue queue] else []) h.

(** [command_queue(const command_queue &other)] *)
Definition copy_construct (other : nat) (h : heap) : option (nat * heap) :=
  o ← object_at h other;
  let new := {| m_queue := m_queue o; m_version := m_version o |} in
  Some (allocate new (retain_if_set (m_queue new)) h).

(** [operator=(const command_queue &other)] *)
Definition copy_assign (this_ other : nat) (h : heap) : option heap :=
  t ← object_at h this_;
  o ← object_at h other;
  if bool_decide (this_ ≠ other) then
    let released := release_if_set (m_queue t) in
    let t' := {| m_queue := m_queue o; m_version := m_version o |} in
    Some {| objects := <[this_ := Some t']> (objects h);
            calls := calls h ++ released ++ retain_if_set (m_queue t') |}
  else Some h.

(** [command_queue(command_queue&& other)] *)
Definition move_construct (other : nat) (h : heap) : option (nat * heap) :=
  o ← object_at h other;
  let new := {| m_queue := m_queue o; m_version := m_version o |} in
  let h1 := {| objects := <[other := Some {| m_queue := 0; m_version := 0 |}]> (objects h);
               calls := calls h |} in
  Some (allocate new [] h1).

(** [operator=(command_queue&& other)]; the two writes to [other] and to
    [*this] go through the heap one after the other, so that the case
    [this == &other] is the one the code has. *)
Definition move_assign (this_ other : nat) (h : heap) : option heap :=
  t ← object_at h this_;
  o ← object_at h other;
  let released := release_if_set (m_queue t) in
  let objects1 :=
    <[this_ := Some {| m_queue := m_queue o; m_version := m_version o |}]> (objects h) in
  o1 ← object_at {| objects := objects1; calls := calls h |} other;
  let objects2 :=
    <[other := Some {| m_queue := 0; m_version := m_version o1 |}]> objects1 in
  Some {| objects := objects2; calls := calls h ++ released |}.

Section Destructor.

Variable be : backend.

(** [~command_queue()], with
    [BOOST_COMPUTE_ASSERT_CL_SUCCESS(clReleaseCommandQueue(m_queue))]. *)
Definition destroy (this_ : nat) (h : heap) : option heap :=
  t ← object_at h this_;
  if nonzero (m_queue t) then
    let c := clReleaseCommandQueue (m_queue t) in
    if status (respond be (calls h) c) =? CL_SUCCESS then
      Some {| objects := <[this_ := None]> (objects h); calls := calls h ++ [c] |}
    else None
  else Some {| objects := <[this_ := None]> (objects h); calls := calls h |}.

(** A program fragment made of copies, moves and destructions. *)
Inductive lifecycle_op :=
| CopyConstruct (other : nat)
| CopyAssign (this_ other : nat)
| MoveConstruct (other : nat)
| MoveAssign (this_ other : nat)
| Destroy (this_ : nat).

Definition lifecycle_step (op : lifecycle_op) (h : heap) : option heap :=
  match op with
  | CopyConstruct other => snd <$> copy_construct other h
  | CopyAssign this_ other => copy_assign this_ other h
  | MoveConstruct other => snd <$> move_construct other h
  | MoveAssign this_ other => move_assign this_ other h
  | Destroy this_ => destroy this_ h
  end.

Fixpoint lifecycle_run (ops : list lifecycle_op) (h : heap) : option heap :=
  match ops with
  | [] => Some h
  | op :: ops' => h' ← lifecycle_step op h; lifecycle_run ops' h'
  end.

End Destructor.

(** *** Counting references

    [holders q] is the number of live objects whose [m_queue] is [q];
    [retains q] and [releases q] count the driver calls on [q] in a log. *)

Fixpoint count {A : Type} (p : A -> bool) (l : list A) : Z :=
  match l with
  | [] => 0
  | x :: l' => (if p x then 1 else 0) + count p l'
  end.

Definition holds (q : handle) (o : option command_queue) : bool :=
  match o with
  | Some c => m_queue c =? q
  | None => false
  end.

Definition is_retain (q : handle) (c : action) : bool :=
  match c with
  | clRetainCommandQueue q' => q' =? q
  | _ => false
  end.

Definition is_release (q : handle) (c : action) : bool :=
  match c with
  | clReleaseCommandQueue q' => q' =? q
  | _ => false
  end.

Definition holders (q : handle) (objs : list (option command_queue)) : Z :=
  count (holds q) objs.

Definition retains (q : handle) (cs : list action) : Z := count (is_retain q) cs.

Definition releases (q : handle) (cs : list action) : Z := count (is_release q) cs.

(** References owned by the wrappers minus references the log accounts for. *)
Definition balance (q : handle) (h : heap) : Z :=
  holders q (objects h) + releases q (calls h) - retains q (calls h).

(** *** Readings of the handle contract that ignore aliasing

    Copy assignment retains the source's handle once, whatever the two
    operands are. *)
Definition copy_assign_always_retains_once : Prop :=
  forall (h h' : heap) (this_ other : nat) (t o : command_queue),
    object_at h this_ = Some t ->
    object_at h other = Some o ->
    m_queue o <> 0 ->
    copy_assign this_ other h = Some h' ->
    retains (m_queue o) (calls h') = retains (m_queue o) (calls h) + 1.

(** Move assignment leaves the source's handle in the destination,
    whatever the two operands are. *)
Definition move_assign_always_transfers : Prop :=
  forall (h h' : heap) (this_ other : nat) (t o : command_queue),
    object_at h this_ = Some t ->
    object_at h other = Some o ->
    move_assign this_ other h = Some h' ->
    exists t', object_at h' this_ = Some t' /\ m_queue t' = m_queue o.

(** ** Drivers and objects used in the examples

    [sample_backend version code] reports [version] for every device and
    answers every call with status [code]. *)

Definition sample_response (code : cl_int) : response :=
  {| status := code; event_out := 41; mapped := 4096;
     row_pitch_out := 64; slice_pitch_out := 1024 |}.

Definition sample_backend (version : Z) (code : cl_int) : backend :=
  {| respond := fun _ _ => sample_response code;
     queue_context := fun _ => 5;
     queue_device_version := fun _ => version |}.

Definition sample_queue (version : Z) : state :=
  {| this := {| m_queue := 7; m_version := version |}; log := [] |}.

Definition sample_buffer : buffer :=
  {| buffer_get := 11; buffer_size := 10; buffer_context := 5 |}.

Definition sample_kernel : kernel :=
  {| kernel_get := 13; kernel_context := 5 |}.

Definition sample_image : image_object :=
  {| image_get := 17; image_context := 5;
     image_width := 4; image_height := 0; image_depth := 0;
     image_element_size := 4 |}.

Definition sample_heap : heap :=
  {| objects := [Some {| m_queue := 7; m_version := 120 |};
                 Some {| m_queue := 9; m_version := 0 |}];
     calls := [] |}.

(** ** The version-gated operations, gathered

    One constructor per method that starts with a version check, carrying
    the method's own arguments; the wait list and the event pointer, which
    every method takes, are passed alongside. *)

Inductive gated_request :=
| ReadBufferRect (buffer_ : buffer) (buffer_origin host_origin region : size3)
    (buffer_row_pitch buffer_slice_pitch host_row_pitch host_slice_pitch : size_t)
    (host_ptr : pointer)
| WriteBufferRect (buffer_ : buffer) (buffer_origin host_origin region : size3)
    (buffer_row_pitch buffer_slice_pitch host_row_pitch host_slice_pitch : size_t)
    (host_ptr : pointer)
| CopyBufferRect (src_buffer dst_buffer : buffer) (src_origin dst_origin region : size3)
    (buffer_row_pitch buffer_slice_pitch host_row_pitch host_slice_pitch : size_t)
| FillBuffer (buffer_ : buffer) (pattern : pointer) (pattern_size offset size : size_t)
| FillImage (image : image_object) (fill_color : pointer) (origin region : size3)
| MigrateMemoryObjects (num_mem_objects : Z) (mem_objects : pointer) (flags : Z)
| BarrierAfterEvents
| MarkerAfterEvents
| SvmMemcpy (dst_ptr src_ptr : pointer) (size : size_t)
| SvmFill (svm_ptr pattern : pointer) (pattern_size size : size_t)
| SvmFree (svm_ptr : pointer)
| SvmMap (svm_ptr : pointer) (size : size_t) (flags : Z)
| SvmUnmap (svm_ptr : pointer).

(** The constant each method compares [get_version()] with. *)
Definition minimum_version (r : gated_request) : Z :=
  match r with
  | ReadBufferRect _ _ _ _ _ _ _ _ _
  | WriteBufferRect _ _ _ _ _ _ _ _ _
  | CopyBufferRect _ _ _ _ _ _ _ _ _ => 110
  | FillBuffer _ _ _ _ _
  | FillImage _ _ _ _
  | MigrateMemoryObjects _ _ _
  | BarrierAfterEvents
  | MarkerAfterEvents => 120
  | SvmMemcpy _ _ _
  | SvmFill _ _ _ _
  | SvmFree _
  | SvmMap _ _ _
  | SvmUnmap _ => 200
  end.

Definition run_gated (be : backend) (r : gated_request)
    (events : wait_list) (event_ : option event) : M (option event) :=
  match r with
  | ReadBufferRect b bo ho rg brp bsp hrp hsp p =>
      enqueue_read_buffer_rect be b bo ho rg brp bsp hrp hsp p events event_
  | WriteBufferRect b bo ho rg brp bsp hrp hsp p =>
      enqueue_write_buffer_rect be b bo ho rg brp bsp hrp hsp p events event_
  | CopyBufferRect s d so do rg brp bsp hrp hsp =>
      enqueue_copy_buffer_rect be s d so do rg brp bsp hrp hsp events event_
  | FillBuffer b pat ps off sz => enqueue_fill_buffer be b pat ps off sz events event_
  | FillImage img col o rg => enqueue_fill_image be img col o rg events event_
  | MigrateMemoryObjects n ms fl => enqueue_migrate_memory_objects be n ms fl events event_
  | BarrierAfterEvents => enqueue_barrier_events be events event_
  | MarkerAfterEvents => enqueue_marker_events be events event_
  | SvmMemcpy d s sz => enqueue_svm_memcpy be d s sz events event_
  | SvmFill p pat ps sz => enqueue_svm_fill be p pat ps sz events event_
  | SvmFree p => enqueue_svm_free be p events event_
  | SvmMap p sz fl => enqueue_svm_map be p sz fl events event_
  | SvmUnmap p => enqueue_svm_unmap be p events event_
  end.



(** ** The operations that have an [_async] variant, gathered *)

Inductive async_request :=
| ReadBufferOp (buffer_ : buffer) (offset size : size_t) (host_ptr : pointer)
| WriteBufferOp (buffer_ : buffer) (offset size : size_t) (host_ptr : pointer)
| CopyBufferOp (src_buffer dst_buffer : buffer) (src_offset dst_offset size : size_t)
| FillBufferOp (buffer_ : buffer) (pattern : pointer) (pattern_size offset size : size_t)
| NDRangeKernelOp (kernel_ : kernel) (work_dim : size_t)
    (global_work_offset global_work_size local_work_size : option (list size_t))
| Range1DKernelOp (kernel_ : kernel)
    (global_work_offset global_work_size local_work_size : size_t)
| SvmMemcpyOp (dst_ptr src_ptr : pointer) (size : size_t).

(** The synchronous method, with its optional event pointer. *)
Definition run_sync (be : backend) (r : async_request)
    (events : wait_list) (event_ : option event) : M (option event) :=
  match r with
  | ReadBufferOp b off sz p => enqueue_read_buffer be b off sz p events event_
  | WriteBufferOp b off sz p => enqueue_write_buffer be b off sz p events event_
  | CopyBufferOp s d so do sz => enqueue_copy_buffer be s d so do sz events event_
  | FillBufferOp b pat ps off sz => enqueue_fill_buffer be b pat ps off sz events event_
  | NDRangeKernelOp k wd gwo gws lws =>
      enqueue_nd_range_kernel be k wd gwo gws lws events event_
  | Range1DKernelOp k gwo gws lws =>
      enqueue_1d_range_kernel be k gwo gws lws events event_
  | SvmMemcpyOp d s sz => enqueue_svm_memcpy be d s sz events event_
  end.

(** The [_async] method of the same name. *)
Definition run_async (be : backend) (r : async_request) (events : wait_list) : M event :=
  match r with
  | ReadBufferOp b off sz p => enqueue_read_buffer_async be b off sz p events
  | WriteBufferOp b off sz p => enqueue_write_buffer_async be b off sz p events
  | CopyBufferOp s d so do sz => enqueue_copy_buffer_async be s d so do sz events
  | FillBufferOp b pat ps off sz => enqueue_fill_buffer_async be b pat ps off sz events
  | NDRangeKernelOp k wd gwo gws lws =>
      enqueue_nd_range_kernel_async be k wd gwo gws lws events
  | Range1DKernelOp k gwo gws lws =>
      enqueue_1d_range_kernel_async be k gwo gws lws events
  | SvmMemcpyOp d s sz => enqueue_svm_memcpy_async be d s sz events
  end.


(** The calls logged between two states of one run. *)
Definition issued (before after : state) : list action :=
  drop (length (log before)) (log after).

(** ** The walk as the specification words it

    Every element of the 3D region that starts at [origin3] and extends over
    [region3], depth outermost and width innermost; the address of an element
    is found from the mapped base pointer, which is the address of the
    element at the origin, with the element size, the row pitch and the
    slice pitch. *)
Definition region_elements (pImage3D : pointer) (origin3 region3 : size3)
    (row_pitch slice_pitch element_size : size_t) : list visit :=
  let '(o0, o1, o2) := origin3 in
  let '(r0, r1, r2) := region3 in
  kd ← seqZ 0 r2;
  kh ← seqZ 0 r1;
  kw ← seqZ 0 r0;
  [{| visit_pElem := pImage3D + kd * slice_pitch + kh * row_pitch + kw * element_size;
      visit_w := o0 + kw; visit_h := o1 + kh; visit_d := o2 + kd |}].


(** ** The enqueue surface as a whole

    [is_enqueue] tells the [clEnqueue...] entry points from the other
    calls a method may log. *)

Definition is_enqueue (c : action) : bool :=
  match c with
  | clRetainCommandQueue _ | clReleaseCommandQueue _ | device_get_version _
  | clCreateUserEvent _ | clSetUserEventStatus _ _ | clSetEventCallback _ _ _
  | walk_elemets _ => false
  | _ => true
  end.

(** Every enqueue call of [new], issued after [history], was answered with
    [CL_SUCCESS]. *)
Fixpoint accepted (be : backend) (history new : list action) : Prop :=
  match new with
  | [] => True
  | c :: rest =>
      (is_enqueue c = true -> status (respond be history c) = CL_SUCCESS) /\
      accepted be (history ++ [c]) rest
  end.

(** Forget the value a method returns. *)
Definition void {A : Type} (m : M A) : M unit := let* _x := m in ret tt.

(** One constructor per way of calling an enqueue method of the queue. *)
Inductive enqueue_request :=
| GatedOp (r : gated_request) (events : wait_list) (event_ : option event)
| SyncOp (r : async_request) (events : wait_list) (event_ : option event)
| AsyncOp (r : async_request) (events : wait_list)
| MapBufferOp (buffer_ : buffer) (flags : Z) (offset size : size_t)
    (events : wait_list) (event_ : option event)
| MapImageOp (image : image_object) (flags : Z) (origin region : size3)
    (events : wait_list) (event_ : option event)
| UnmapBufferOp (mem_object : memory_object) (mapped_ptr : pointer)
    (events : wait_list) (event_ : option event)
| UnmapMemObjectOp (mem : handle) (mapped_ptr : pointer)
    (events : wait_list) (event_ : option event)
| WalkImageOp (image : image_object) (flags : Z) (origin region : option size3)
    (events : wait_list) (pevent : option event)
| TaskOp (kernel_ : kernel) (events : wait_list) (event_ : option event)
| BarrierOp
| MarkerOp (event_ : option event).

Definition run_request (be : backend) (rq : enqueue_request) : M unit :=
  match rq with
  | GatedOp r events event_ => void (run_gated be r events event_)
  | SyncOp r events event_ => void (run_sync be r events event_)
  | AsyncOp r events => void (run_async be r events)
  | MapBufferOp b fl off sz events event_ =>
      void (enqueue_map_buffer be b fl off sz events event_)
  | MapImageOp img fl o rg events event_ =>
      void (enqueue_map_image be img fl o rg events event_)
  | UnmapBufferOp m p events event_ => void (enqueue_unmap_buffer be m p events event_)
  | UnmapMemObjectOp m p events event_ =>
      void (enqueue_unmap_mem_object be m p events event_)
  | WalkImageOp img fl o rg events pevent =>
      void (enqueue_walk_image be img fl o rg events pevent)
  | TaskOp k events event_ => void (enqueue_task be k events event_)
  | BarrierOp => enqueue_barrier be
  | MarkerOp event_ => void (enqueue_marker be event_)
  end.

(** The two methods that do not look at the status of their call. *)
Definition discards_status (rq : enqueue_request) : bool :=
  match rq with
  | BarrierOp | GatedOp BarrierAfterEvents _ _ => true
  | _ => false
  end.


(** The methods whose first statement is [BOOST_ASSERT(m_queue != 0)]
    (the asynchronous variants and [enqueue_1d_range_kernel] reach it
    through the method they call, with nothing in between).  [enqueue_fill_image] looks
    at the version first; [enqueue_unmap_buffer] first compares the
    contexts, which queries the queue, and makes the assertion only in
    [enqueue_unmap_mem_object]; the markers and the SVM methods do not make
    the assertion at all. *)
Definition asserts_queue_first (rq : enqueue_request) : bool :=
  match rq with
  | UnmapBufferOp _ _ _ _
  | GatedOp (FillImage _ _ _ _) _ _
  | GatedOp MarkerAfterEvents _ _
  | GatedOp (SvmMemcpy _ _ _) _ _ | GatedOp (SvmFill _ _ _ _) _ _
  | GatedOp (SvmFree _) _ _ | GatedOp (SvmMap _ _ _) _ _ | GatedOp (SvmUnmap _) _ _
  | SyncOp (SvmMemcpyOp _ _ _) _ _ | AsyncOp (SvmMemcpyOp _ _ _) _
  | MarkerOp _ => false
  | _ => true
  end.

(** The [cl_command_queue] argument of an enqueue call ([0] for the calls
    that take none). *)
Definition call_queue (c : action) : handle :=
  match c with
  | clEnqueueReadBuffer q _ _ _ _ _ _ _
  | clEnqueueWriteBuffer q _ _ _ _ _ _ _
  | clEnqueueReadBufferRect q _ _ _ _ _ _ _ _ _ _ _ _
  | clEnqueueWriteBufferRect q _ _ _ _ _ _ _ _ _ _ _ _
  | clEnqueueCopyBuffer q _ _ _ _ _ _ _
  | clEnqueueCopyBufferRect q _ _ _ _ _ _ _ _ _ _ _
  | clEnqueueFillBuffer q _ _ _ _ _ _ _
  | clEnqueueMapBuffer q _ _ _ _ _ _ _
  | clEnqueueMapImage q _ _ _ _ _ _ _
  | clEnqueueUnmapMemObject q _ _ _ _
  | clEnqueueFillImage q _ _ _ _ _ _
  | clEnqueueMigrateMemObjects q _ _ _ _ _
  | clEnqueueNDRangeKernel q _ _ _ _ _ _ _
  | clEnqueueTask q _ _ _
  | clEnqueueBarrier q
  | clEnqueueBarrierWithWaitList q _ _
  | clEnqueueMarker q _
  | clEnqueueMarkerWithWaitList q _ _
  | clEnqueueSVMMemcpy q _ _ _ _ _ _
  | clEnqueueSVMMemFill q _ _ _ _ _ _
  | clEnqueueSVMFree q _ _ _ _ _ _
  | clEnqueueSVMMap q _ _ _ _ _ _
  | clEnqueueSVMUnmap q _ _ _ => q
  | _ => 0
  end.

(** The gated methods that contain no assertion. *)
Definition makes_no_assertion (r : gated_request) : bool :=
  match r with
  | MarkerAfterEvents
  | SvmMemcpy _ _ _ | SvmFill _ _ _ _ | SvmFree _ | SvmMap _ _ _ | SvmUnmap _ => true
  | _ => false
  end.

(** ** [check_device_version] *)

(** [static_cast<int>(x)] for a [uint_] [x], on a 32-bit two's complement
    [int]. *)
Definition int_of_uint (x : Z) : Z := if x <? 2 ^ 31 then x else x - 2 ^ 32.

(** Arithmetic on [int], 32 bits in two's complement: a result outside
    [-2^31 .. 2^31 - 1] wraps around (the language leaves signed overflow
    undefined; wrapping is what the usual compilers produce). *)
Definition int_wrap (z : Z) : Z := (z + 2 ^ 31) mod 2 ^ 32 - 2 ^ 31.

Definition int_mul (a b : Z) : Z := int_wrap (a * b).
Definition int_add (a b : Z) : Z := int_wrap (a + b).

(** [check_device_version(int major, int minor)]:
    [int ver = static_cast<int>(get_version());
     int check = major * 100 + minor;
     return check <= ver;] *)
Definition check_device_version (be : backend) (major minor : Z) : M bool :=
  let* v := get_version be in
  let ver := int_of_uint v in
  let check := int_add (int_mul major 100) minor in
  ret (check <=? ver).

(** The version named by the [opencl_version_warning] line in the
    documentation comment of each gated method, as [(major, minor)]. *)
Definition documented_version (r : gated_request) : Z * Z :=
  match r with
  | ReadBufferRect _ _ _ _ _ _ _ _ _
  | WriteBufferRect _ _ _ _ _ _ _ _ _
  | CopyBufferRect _ _ _ _ _ _ _ _ _ => (1, 1)
  | FillBuffer _ _ _ _ _
  | FillImage _ _ _ _
  | MigrateMemoryObjects _ _ _
  | BarrierAfterEvents
  | MarkerAfterEvents => (1, 2)
  | SvmMemcpy _ _ _
  | SvmFill _ _ _ _
  | SvmFree _
  | SvmMap _ _ _
  | SvmUnmap _ => (2, 0)
  end.

(** ** [operator==] and [operator!=] *)

Definition queue_eq (a b : command_queue) : bool := m_queue a =? m_queue b.

Definition queue_ne (a b : command_queue) : bool := negb (m_queue a =? m_queue b).

(** An invocation of the caller's per-element function. *)
Definition is_walk (c : action) : bool :=
  match c with walk_elemets _ => true | _ => false end.

(** ** [fillc], the per-element function of the raw fill

    Host memory is a map from addresses to bytes.  [fillc] keeps the element
    size and its own 16-byte copy of the fill colour; its call operator is
    [std::copy(m_fill_color, m_fill_color + m_element_size, pelem)], one
    byte after the other.  Reading [m_fill_color] past its 16 bytes is
    undefined in the source; the lookup then yields 0 here, and the
    properties below are stated for element sizes within the array. *)

Definition memory : Type := pointer -> Z.

Definition store (a : pointer) (b : Z) (mem : memory) : memory :=
  fun x => if x =? a then b else mem x.

Record fillc := {
  m_element_size : size_t;
  m_fill_color : list Z
}.

(** [fillc(size_t element_size, const void * fill_color)] copies 16 bytes
    from [fill_color]. *)
Definition fillc_make (element_size : size_t) (fill_color : list Z) : fillc :=
  {| m_element_size := element_size; m_fill_color := take 16 fill_color |}.

(** [operator()(void *pelem, size_t, size_t, size_t)] *)
Definition fillc_call (f : fillc) (pelem : pointer) (mem : memory) : memory :=
  for_range 0 (m_element_size f)
    (fun i m => store (pelem + i) (default 0 (m_fill_color f !! Z.to_nat i)) m) mem.

(** The function called on each visit of a walk, in order. *)
Definition run_walk (f : fillc) (vs : list visit) (mem : memory) : memory :=
  fold_left (fun m v => fillc_call f (visit_pElem v) m) vs mem.

(** ** The [extents<N>] overloads

    An [extents<N>] is the list of its [N] entries.  The image overloads
    are instantiated for [N <= 3] only ([BOOST_STATIC_ASSERT(N <= 3)]), the
    kernel overload for [N > 0].  [copy_extents e init] is
    [std::copy(e.data(), e.data() + N, a)] on an array [a] initialised to
    [init]. *)

Definition copy_extents (e : list size_t) (init : size3) : size3 :=
  let '(a, b, c) := init in
  (default a (e !! 0%nat), default b (e !! 1%nat), default c (e !! 2%nat)).

Definition product (e : list size_t) : Z := foldr Z.mul 1 e.

Section Extents.

Variable be : backend.

Definition enqueue_map_image_extents (image : image_object) (flags : Z)
    (origin region : list size_t)
    (events : wait_list) (event_ : option event) : M mapping :=
  let* ctx := get_context be in
  BOOST_ASSERT (image_context image =? ctx) ;;;
  let origin3 := copy_extents origin (0, 0, 0) in
  let region3 := copy_extents region (1, 1, 1) in
  enqueue_map_image be image flags origin3 region3 events event_.

Definition enqueue_rawfill_image_walking_extents (image : image_object)
    (fill_color : pointer) (origin region : list size_t)
    (events : wait_list) (event_ : option event) : M (option event) :=
  let* ctx := get_context be in
  BOOST_ASSERT (image_context image =? ctx) ;;;
  let origin3 := copy_extents origin (0, 0, 0) in
  let region3 := copy_extents region (1, 1, 1) in
  enqueue_rawfill_image_walking be image fill_color (Some origin3) (Some region3)
    events event_.

Definition enqueue_fill_image_extents (image : image_object)
    (fill_color : pointer) (origin region : list size_t)
    (events : wait_list) (event_ : option event) : M (option event) :=
  let* ctx := get_context be in
  BOOST_ASSERT (image_context image =? ctx) ;;;
  let origin3 := copy_extents origin (0, 0, 0) in
  let region3 := copy_extents region (1, 1, 1) in
  enqueue_fill_image be image fill_color origin3 region3 events event_.

(** [(local_work_size[0] == 0) ? NULL : local_work_size.data()] *)
Definition enqueue_nd_range_kernel_extents (kernel_ : kernel)
    (global_work_offset global_work_size local_work_size : list size_t)
    (events : wait_list) (event_ : option event) : M (option event) :=
  enqueue_nd_range_kernel be kernel_ (Z.of_nat (length global_work_size))
    (Some global_work_offset) (Some global_work_size)
    (if default 0 (local_work_size !! 0%nat) =? 0 then None else Some local_work_size)
    events event_.

(** ** [buffer::clone]

    [copy] is the buffer built by
    [buffer copy(get_context(), size(), get_memory_flags())], whose
    constructor lives in another header. *)
Definition buffer_clone (self copy : buffer) : M buffer :=
  let* _e := enqueue_copy_buffer be self copy 0 0 (buffer_size self) [] None in
  ret copy.

End Extents.

(** * Properties *)

(** ** Generic facts about counting *)

Lemma count_app {A} (p : A -> bool) (l1 l2 : list A) :
  count p (l1 ++ l2) = count p l1 + count p l2.
Proof. induction l1 as [|x l1 IH]; simpl; [done | rewrite IH; lia]. Qed.

Lemma count_nonneg {A} (p : A -> bool) (l : list A) : 0 <= count p l.
Proof. induction l as [|x l IH]; simpl; [done | destruct (p x); lia]. Qed.

Lemma count_insert {A} (p : A -> bool) (l : list A) (i : nat) (old new : A) :
  l !! i = Some old ->
  count p (<[i := new]> l) + (if p old then 1 else 0)
  = count p l + (if p new then 1 else 0).
Proof.
  revert i; induction l as [|x l IH]; intros [|i] Hi; simpl in *; try done.
  - injection Hi as ->. lia.
  - specialize (IH i Hi). lia.
Qed.

(** ** The cached version *)

Section Version.

Variable be : backend.

Lemma get_version_cached (st : state) :
  m_version (this st) <> 0 ->
  get_version be st = (Returned (m_version (this st)), st).
Proof.
  intros Hv. unfold get_version.
  destruct (Z.eqb_spec (m_version (this st)) 0); [done | reflexivity].
Qed.

Lemma get_version_unknown (st : state) :
  m_version (this st) = 0 ->
  get_version be st =
    (Returned (queue_device_version be (m_queue (this st))),
     {| this := {| m_queue := m_queue (this st);
                   m_version := queue_device_version be (m_queue (this st)) |};
        log := log st ++ [device_get_version (m_queue (this st))] |}).
Proof. intros Hv. unfold get_version. rewrite Hv. reflexivity. Qed.

End Version.

(** ** Reference counting *)

Lemma object_at_lookup (h : heap) (a : nat) (o : command_queue) :
  object_at h a = Some o <-> objects h !! a = Some (Some o).
Proof.
  unfold object_at. destruct (objects h !! a) as [[c|]|]; split; congruence.
Qed.

Lemma object_at_allocate (o : command_queue) (cs : list action) (h : heap) :
  object_at (snd (allocate o cs h)) (fst (allocate o cs h)) = Some o.
Proof.
  apply object_at_lookup. simpl.
  rewrite lookup_app_r by lia. by rewrite Nat.sub_diag.
Qed.

Lemma nonzero_true (x : Z) : x <> 0 -> nonzero x = true.
Proof. unfold nonzero. intros H. by destruct (Z.eqb_spec x 0). Qed.

Lemma retains_retain_if_set (q x : handle) :
  q <> 0 -> retains q (retain_if_set x) = if x =? q then 1 else 0.
Proof.
  intros Hq. unfold retains, retain_if_set, nonzero.
  destruct (Z.eqb_spec x 0) as [->|Hx]; cbn [negb count is_retain].
  - destruct (Z.eqb_spec 0 q); [congruence | done].
  - destruct (x =? q); done.
Qed.

Lemma releases_release_if_set (q x : handle) :
  q <> 0 -> releases q (release_if_set x) = if x =? q then 1 else 0.
Proof.
  intros Hq. unfold releases, release_if_set, nonzero.
  destruct (Z.eqb_spec x 0) as [->|Hx]; cbn [negb count is_release].
  - destruct (Z.eqb_spec 0 q); [congruence | done].
  - destruct (x =? q); done.
Qed.

Lemma retains_release_if_set (q x : handle) : retains q (release_if_set x) = 0.
Proof. unfold retains, release_if_set. by destruct (nonzero x). Qed.

Lemma releases_retain_if_set (q x : handle) : releases q (retain_if_set x) = 0.
Proof. unfold releases, retain_if_set. by destruct (nonzero x). Qed.

Lemma balance_allocate (q : handle) (o : command_queue) (cs : list action) (h : heap) :
  balance q (snd (allocate o cs h))
  = balance q h + (if m_queue o =? q then 1 else 0) + releases q cs - retains q cs.
Proof.
  unfold balance, holders, releases, retains. simpl.
  rewrite !count_app. simpl. lia.
Qed.

Lemma copy_construct_balance (q : handle) (other : nat) (h : heap) (r : nat * heap) :
  q <> 0 -> copy_construct other h = Some r -> balance q (snd r) = balance q h.
Proof.
  intros Hq. unfold copy_construct.
  destruct (object_at h other) as [o|]; simpl; [|done].
  intros [= <-]. rewrite balance_allocate. simpl.
  rewrite retains_retain_if_set, releases_retain_if_set by done. lia.
Qed.

Lemma copy_assign_balance (q : handle) (this_ other : nat) (h h' : heap) :
  q <> 0 -> copy_assign this_ other h = Some h' -> balance q h' = balance q h.
Proof.
  intros Hq. unfold copy_assign.
  destruct (object_at h this_) as [t|] eqn:Ht; simpl; [|done].
  destruct (object_at h other) as [o|] eqn:Ho; simpl; [|done].
  case_bool_decide; intros [= <-]; [|done].
  apply object_at_lookup in Ht.
  unfold balance, holders, releases, retains. simpl.
  pose proof (count_insert (holds q) _ _ _
                (Some {| m_queue := m_queue o; m_version := m_version o |}) Ht) as Hc.
  cbn [holds m_queue] in Hc. rewrite !count_app.
  fold (releases q (release_if_set (m_queue t))).
  fold (releases q (retain_if_set (m_queue o))).
  fold (retains q (release_if_set (m_queue t))).
  fold (retains q (retain_if_set (m_queue o))).
  rewrite retains_retain_if_set, releases_release_if_set,
    retains_release_if_set, releases_retain_if_set by done.
  lia.
Qed.

Lemma move_construct_balance (q : handle) (other : nat) (h : heap) (r : nat * heap) :
  q <> 0 -> move_construct other h = Some r -> balance q (snd r) = balance q h.
Proof.
  intros Hq. unfold move_construct.
  destruct (object_at h other) as [o|] eqn:Ho; simpl; [|done].
  intros [= <-]. rewrite balance_allocate. simpl.
  apply object_at_lookup in Ho.
  pose proof (count_insert (holds q) _ _ _
                (Some {| m_queue := 0; m_version := 0 |}) Ho) as Hc.
  cbn [holds m_queue] in Hc. unfold balance, holders, releases, retains in *. simpl.
  destruct (Z.eqb_spec 0 q); [congruence|]. lia.
Qed.

Lemma move_assign_balance (q : handle) (this_ other : nat) (h h' : heap) :
  q <> 0 -> move_assign this_ other h = Some h' -> balance q h' = balance q h.
Proof.
  intros Hq. unfold move_assign.
  destruct (object_at h this_) as [t|] eqn:Ht; simpl; [|done].
  destruct (object_at h other) as [o|] eqn:Ho; simpl; [|done].
  match goal with |- context [object_at ?h1 other] =>
    destruct (object_at h1 other) as [o1|] eqn:Ho1 end; simpl; [|done].
  intros [= <-].
  apply object_at_lookup in Ht, Ho, Ho1. simpl in Ho1.
  assert (m_queue o1 = m_queue o) as Hq1.
  { destruct (decide (this_ = other)) as [->|Hne].
    - rewrite list_lookup_insert_eq in Ho1 by (by eapply lookup_lt_Some).
      by injection Ho1 as <-.
    - rewrite list_lookup_insert_ne in Ho1 by done. congruence. }
  pose proof (count_insert (holds q) _ _ _
                (Some {| m_queue := m_queue o; m_version := m_version o |}) Ht) as Hc1.
  pose proof (count_insert (holds q) _ _ _
                (Some {| m_queue := 0; m_version := m_version o1 |}) Ho1) as Hc2.
  cbn [holds m_queue] in Hc1, Hc2. rewrite Hq1 in Hc2.
  unfold balance, holders, releases, retains in *. simpl.
  rewrite !count_app.
  fold (releases q (release_if_set (m_queue t))).
  fold (retains q (release_if_set (m_queue t))).
  rewrite releases_release_if_set, retains_release_if_set by done.
  destruct (Z.eqb_spec 0 q); [congruence|]. lia.
Qed.

Lemma destroy_balance (be : backend) (q : handle) (this_ : nat) (h h' : heap) :
  q <> 0 -> destroy be this_ h = Some h' -> balance q h' = balance q h.
Proof.
  intros Hq. unfold destroy.
  destruct (object_at h this_) as [t|] eqn:Ht; simpl; [|done].
  apply object_at_lookup in Ht.
  pose proof (count_insert (holds q) _ _ _ None Ht) as Hc. cbn [holds m_queue] in Hc.
  unfold nonzero. destruct (Z.eqb_spec (m_queue t) 0) as [Hz|Hz]; simpl.
  - intros [= <-]. unfold balance, holders in *. simpl.
    rewrite Hz in Hc. destruct (Z.eqb_spec 0 q); [congruence|]. lia.
  - destruct (_ =? CL_SUCCESS); [|done]. intros [= <-].
    unfold balance, holders, releases, retains in *. simpl.
    rewrite !count_app. simpl. lia.
Qed.

Lemma lifecycle_step_balance (be : backend) (q : handle) (op : lifecycle_op) (h h' : heap) :
  q <> 0 -> lifecycle_step be op h = Some h' -> balance q h' = balance q h.
Proof.
  intros Hq. destruct op; simpl.
  - destruct (copy_construct other h) as [r|] eqn:E; simpl; [|done].
    intros [= <-]. by eapply copy_construct_balance.
  - by apply copy_assign_balance.
  - destruct (move_construct other h) as [r|] eqn:E; simpl; [|done].
    intros [= <-]. by eapply move_construct_balance.
  - by apply move_assign_balance.
  - by apply destroy_balance.
Qed.

Lemma holders_held (q : handle) (h : heap) (a : nat) (t : command_queue) :
  object_at h a = Some t -> m_queue t = q -> 1 <= holders q (objects h).
Proof.
  intros Ht Hq. apply object_at_lookup in Ht.
  pose proof (count_insert (holds q) _ _ _ None Ht) as Hc.
  pose proof (count_nonneg (holds q) (<[a := None]> (objects h))) as Hn.
  cbn [holds] in Hc. rewrite Hq, Z.eqb_refl in Hc. unfold holders. lia.
Qed.

Lemma releases_release_held (q : handle) (h : heap) (a : nat) (t : command_queue) :
  q <> 0 -> object_at h a = Some t ->
  releases q (release_if_set (m_queue t)) <= holders q (objects h).
Proof.
  intros Hq Ht. rewrite releases_release_if_set by done.
  destruct (Z.eqb_spec (m_queue t) q) as [E|E].
  - by eapply holders_held.
  - apply count_nonneg.
Qed.

Lemma releases_prefix (q : handle) (pre cs : list action) :
  pre `prefix_of` cs -> releases q pre <= releases q cs.
Proof.
  intros [k ->]. unfold releases. rewrite count_app.
  pose proof (count_nonneg (is_release q) k). lia.
Qed.

Lemma prefix_app_split {A : Type} (c l pre : list A) :
  pre `prefix_of` c ++ l ->
  pre `prefix_of` c \/ exists pre', pre = c ++ pre' /\ pre' `prefix_of` l.
Proof.
  revert pre. induction c as [|x c IH]; intros pre Hp.
  - right. by exists pre.
  - destruct pre as [|y pre]; [left; apply prefix_nil|].
    simpl in Hp. pose proof (prefix_cons_inv_1 _ _ _ _ Hp) as ->.
    apply prefix_cons_inv_2 in Hp.
    destruct (IH pre Hp) as [Hl|(pre' & -> & Hr)].
    + left. by apply prefix_cons.
    + right. by exists pre'.
Qed.

(** One operation appends its calls to the log; among them at most one
    release of [q], and only if some live object holds [q]. *)
Lemma lifecycle_step_calls (be : backend) (q : handle) (op : lifecycle_op) (h h' : heap) :
  q <> 0 -> lifecycle_step be op h = Some h' ->
  exists c, calls h' = calls h ++ c /\ releases q c <= holders q (objects h).
Proof.
  intros Hq. pose proof (count_nonneg (holds q) (objects h)) as Hn. fold (holders q (objects h)) in Hn.
  destruct op; simpl.
  - unfold copy_construct. destruct (object_at h other) as [o|]; simpl; [|done].
    intros [= <-]. eexists. split; [reflexivity|].
    by rewrite releases_retain_if_set.
  - unfold copy_assign.
    destruct (object_at h this_) as [t|] eqn:Ht; simpl; [|done].
    destruct (object_at h other) as [o|]; simpl; [|done].
    case_bool_decide; intros [= <-].
    + eexists. split; [reflexivity|]. unfold releases. rewrite count_app.
      fold (releases q (release_if_set (m_queue t))).
      fold (releases q (retain_if_set (m_queue o))).
      rewrite releases_retain_if_set.
      pose proof (releases_release_held q h this_ t Hq Ht). lia.
    + exists []. by rewrite app_nil_r.
  - unfold move_construct. destruct (object_at h other) as [o|]; simpl; [|done].
    intros [= <-]. exists []. simpl. by rewrite !app_nil_r.
  - unfold move_assign.
    destruct (object_at h this_) as [t|] eqn:Ht; simpl; [|done].
    destruct (object_at h other) as [o|]; simpl; [|done].
    match goal with |- context [object_at ?h1 other] =>
      destruct (object_at h1 other) as [o1|] end; simpl; [|done].
    intros [= <-]. eexists. split; [reflexivity|].
    by eapply releases_release_held.
  - unfold destroy.
    destruct (object_at h this_) as [t|] eqn:Ht; simpl; [|done].
    pose proof (releases_release_held q h this_ t Hq Ht) as Hr.
    unfold release_if_set in Hr.
    destruct (nonzero (m_queue t)).
    + destruct (_ =? CL_SUCCESS); [|done]. intros [= <-].
      eexists. split; [reflexivity | exact Hr].
    + intros [= <-]. exists []. by rewrite app_nil_r.
Qed.

(** Over a whole program fragment: the log grows by [new]; the change in
    the number of holders equals retains minus releases; and at no point
    of [new] have there been more releases than retains plus the holders
    present at the start. *)
Lemma lifecycle_run_counts (be : backend) (q : handle) (ops : list lifecycle_op) :
  q <> 0 ->
  forall h h', lifecycle_run be ops h = Some h' ->
  exists new, calls h' = calls h ++ new /\
    releases q new + holders q (objects h') = retains q new + holders q (objects h) /\
    forall pre, pre `prefix_of` new ->
      releases q pre <= retains q pre + holders q (objects h).
Proof.
  intros Hq. induction ops as [|op ops IH]; intros h h'; simpl.
  - intros [= <-]. exists []. rewrite app_nil_r. split; [done|]. split; [done|].
    intros pre Hp. apply prefix_nil_inv in Hp as ->.
    pose proof (count_nonneg (holds q) (objects h)).
    unfold releases, retains, holders. cbn [count]. lia.
  - destruct (lifecycle_step be op h) as [h1|] eqn:E; simpl; [|done].
    intros Hrun.
    destruct (lifecycle_step_calls be q op h h1 Hq E) as (c & Hc & Hrel).
    pose proof (lifecycle_step_balance be q op h h1 Hq E) as Hb.
    destruct (IH h1 h' Hrun) as (new & Hnew & Hcnt & Hpre).
    unfold balance in Hb. rewrite Hc in Hb. unfold releases, retains in Hb.
    rewrite !count_app in Hb.
    fold (releases q (calls h)) (releases q c) (retains q (calls h)) (retains q c) in Hb.
    exists (c ++ new). split; [by rewrite Hnew, Hc, app_assoc|].
    unfold releases, retains in *. rewrite !count_app. split; [lia|].
    intros pre Hp. pose proof (count_nonneg (is_retain q) pre) as Hr0.
    destruct (prefix_app_split c new pre Hp) as [Hl|(pre' & -> & Hr)].
    + pose proof (releases_prefix q pre c Hl). unfold releases in *. lia.
    + specialize (Hpre pre' Hr). rewrite !count_app. lia.
Qed.

Lemma object_at_insert_eq (h h' : heap) (a : nat) (old new : command_queue) :
  object_at h a = Some old ->
  objects h' = <[a := Some new]> (objects h) ->
  object_at h' a = Some new.
Proof.
  rewrite !object_at_lookup. intros H ->.
  apply list_lookup_insert_eq. by eapply lookup_lt_Some.
Qed.

Lemma object_at_insert_ne (h h' : heap) (a b : nat) (new : option command_queue) :
  a <> b ->
  objects h' = <[a := new]> (objects h) ->
  object_at h' b = object_at h b.
Proof. intros H E. unfold object_at. rewrite E. by rewrite list_lookup_insert_ne. Qed.

Lemma object_at_allocate_old (o : command_queue) (cs : list action) (h : heap)
    (a : nat) (c : command_queue) :
  object_at h a = Some c -> object_at (snd (allocate o cs h)) a = Some c.
Proof.
  rewrite !object_at_lookup. simpl. intros H.
  rewrite lookup_app_l; [done | by eapply lookup_lt_Some].
Qed.

Lemma copy_construct_spec (h : heap) (other : nat) (o : command_queue) :
  object_at h other = Some o -> m_queue o <> 0 ->
  exists a h', copy_construct other h = Some (a, h') /\
    object_at h' a = Some o /\ object_at h' other = Some o /\
    calls h' = calls h ++ [clRetainCommandQueue (m_queue o)].
Proof.
  intros Ho Hq. unfold copy_construct. rewrite Ho.
  destruct o as [q v]. cbn [mbind option_bind m_queue m_version] in *.
  eexists _, _. split; [reflexivity|].
  split; [|split].
  - apply (object_at_allocate {| m_queue := q; m_version := v |} _ h).
  - by apply (object_at_allocate_old {| m_queue := q; m_version := v |} _ h).
  - cbn [calls]. unfold retain_if_set. by rewrite nonzero_true.
Qed.

Lemma copy_assign_spec (h : heap) (this_ other : nat) (t o : command_queue) :
  object_at h this_ = Some t -> object_at h other = Some o ->
  this_ <> other -> m_queue o <> 0 ->
  exists h', copy_assign this_ other h = Some h' /\
    object_at h' this_ = Some o /\ object_at h' other = Some o /\
    calls h' = calls h ++ (if decide (m_queue t = 0) then []
                           else [clReleaseCommandQueue (m_queue t)])
                       ++ [clRetainCommandQueue (m_queue o)].
Proof.
  intros Ht Ho Hne Hq. unfold copy_assign. rewrite Ht, Ho.
  destruct o as [q v]. cbn [mbind option_bind m_queue m_version] in *.
  rewrite bool_decide_true by done.
  eexists. split; [reflexivity|].
  split; [|split].
  - by eapply (object_at_insert_eq h).
  - etrans; [|exact Ho]. by eapply (object_at_insert_ne h).
  - cbn [calls]. unfold retain_if_set, release_if_set. rewrite (nonzero_true q) by done.
    case_decide as Hz; [by rewrite Hz | by rewrite nonzero_true].
Qed.

Lemma move_construct_spec (h : heap) (other : nat) (o : command_queue) :
  object_at h other = Some o ->
  exists a h', move_construct other h = Some (a, h') /\
    object_at h' a = Some o /\
    object_at h' other = Some {| m_queue := 0; m_version := 0 |} /\
    calls h' = calls h.
Proof.
  intros Ho. unfold move_construct. rewrite Ho.
  destruct o as [q v]. cbn [mbind option_bind m_queue m_version] in *.
  set (h1 := {| objects := <[other := Some {| m_queue := 0; m_version := 0 |}]> (objects h);
                calls := calls h |}).
  eexists _, _. split; [reflexivity|].
  split; [|split].
  - apply (object_at_allocate {| m_queue := q; m_version := v |} [] h1).
  - apply (object_at_allocate_old {| m_queue := q; m_version := v |} [] h1).
    by eapply (object_at_insert_eq h).
  - cbn [allocate snd calls h1]. by rewrite app_nil_r.
Qed.

Lemma move_assign_spec (h : heap) (this_ other : nat) (t o : command_queue) :
  object_at h this_ = Some t -> object_at h other = Some o -> this_ <> other ->
  exists h', move_assign this_ other h = Some h' /\
    object_at h' this_ = Some o /\
    object_at h' other = Some {| m_queue := 0; m_version := m_version o |} /\
    calls h' = calls h ++ (if decide (m_queue t = 0) then []
                           else [clReleaseCommandQueue (m_queue t)]).
Proof.
  intros Ht Ho Hne. unfold move_assign. rewrite Ht, Ho.
  destruct o as [q v]. cbn [mbind option_bind m_queue m_version] in *.
  set (h1 := {| objects := <[this_ := Some {| m_queue := q; m_version := v |}]> (objects h);
                calls := calls h |}).
  assert (object_at h1 other = Some {| m_queue := q; m_version := v |}) as Ho1.
  { etrans; [|exact Ho]. by eapply (object_at_insert_ne h). }
  assert (object_at h1 this_ = Some {| m_queue := q; m_version := v |}) as Ht1.
  { by eapply (object_at_insert_eq h). }
  rewrite Ho1. cbn [mbind option_bind m_queue m_version].
  eexists. split; [reflexivity|]. split; [|split].
  - etrans; [|exact Ht1].
    eapply (object_at_insert_ne h1); [by apply not_eq_sym | reflexivity].
  - eapply (object_at_insert_eq h1); [exact Ho1 | reflexivity].
  - cbn [calls]. unfold release_if_set.
    case_decide as Hz; [by rewrite Hz | by rewrite nonzero_true].
Qed.

Lemma copy_assign_self_spec (h : heap) (this_ : nat) (t : command_queue) :
  object_at h this_ = Some t -> copy_assign this_ this_ h = Some h.
Proof.
  intros Ht. unfold copy_assign. rewrite Ht. simpl.
  by rewrite bool_decide_false by (intros Hne; by apply Hne).
Qed.

Lemma move_assign_self_spec (h : heap) (this_ : nat) (t : command_queue) :
  object_at h this_ = Some t ->
  exists h', move_assign this_ this_ h = Some h' /\
    object_at h' this_ = Some {| m_queue := 0; m_version := m_version t |} /\
    (forall b, b <> this_ -> object_at h' b = object_at h b) /\
    calls h' = calls h ++ (if decide (m_queue t = 0) then []
                           else [clReleaseCommandQueue (m_queue t)]).
Proof.
  intros Ht. unfold move_assign. rewrite Ht.
  destruct t as [q v]. cbn [mbind option_bind m_queue m_version] in *.
  set (h1 := {| objects := <[this_ := Some {| m_queue := q; m_version := v |}]> (objects h);
                calls := calls h |}).
  assert (object_at h1 this_ = Some {| m_queue := q; m_version := v |}) as Ht1.
  { by eapply (object_at_insert_eq h). }
  rewrite Ht1. cbn [mbind option_bind m_queue m_version].
  eexists. split; [reflexivity|]. split; [|split].
  - eapply (object_at_insert_eq h1); [exact Ht1 | reflexivity].
  - intros b Hb. etrans.
    + eapply (object_at_insert_ne h1); [by apply not_eq_sym | reflexivity].
    + eapply (object_at_insert_ne h); [by apply not_eq_sym | reflexivity].
  - cbn [calls]. unfold release_if_set.
    case_decide as Hz; [by rewrite Hz | by rewrite nonzero_true].
Qed.

Lemma destroy_spec (be : backend) (h : heap) (this_ : nat) (t : command_queue) :
  object_at h this_ = Some t ->
  (m_queue t = 0 ->
     destroy be this_ h
     = Some {| objects := <[this_ := None]> (objects h); calls := calls h |}) /\
  (m_queue t <> 0 ->
     status (respond be (calls h) (clReleaseCommandQueue (m_queue t))) = CL_SUCCESS ->
     destroy be this_ h
     = Some {| objects := <[this_ := None]> (objects h);
               calls := calls h ++ [clReleaseCommandQueue (m_queue t)] |}).
Proof.
  intros Ht. unfold destroy. rewrite Ht. simpl. split.
  - intros ->. reflexivity.
  - intros Hq Hs. rewrite nonzero_true by done. rewrite Hs. reflexivity.
Qed.

(** C6, as amended.  Copy construction, and copy assignment from a
    different object, retain a non-null handle exactly once; move
    construction, and move assignment from a different object, hand the
    native id over without any retain and leave the source null; copy
    assignment of an object to itself changes nothing and makes no call;
    move assignment of an object to itself releases its handle when it is
    non-null and leaves the object null, the other objects untouched;
    destruction releases exactly once when the handle is non-null and not
    at all when it is null; and over any sequence of copies, moves and
    destructions the calls issued change the count of a handle by exactly
    the change in the number of objects holding it, so that at no point of
    the log do the releases of a handle exceed its retains plus the
    references the wrappers held at the start. *)
Theorem handle_lifecycle_reference_counting (be : backend) :
  (forall h other o,
     object_at h other = Some o -> m_queue o <> 0 ->
     exists a h', copy_construct other h = Some (a, h') /\
       object_at h' a = Some o /\ object_at h' other = Some o /\
       calls h' = calls h ++ [clRetainCommandQueue (m_queue o)]) /\
  (forall h this_ other t o,
     object_at h this_ = Some t -> object_at h other = Some o ->
     this_ <> other -> m_queue o <> 0 ->
     exists h', copy_assign this_ other h = Some h' /\
       object_at h' this_ = Some o /\ object_at h' other = Some o /\
       calls h' = calls h ++ (if decide (m_queue t = 0) then []
                              else [clReleaseCommandQueue (m_queue t)])
                          ++ [clRetainCommandQueue (m_queue o)]) /\
  (forall h other o,
     object_at h other = Some o ->
     exists a h', move_construct other h = Some (a, h') /\
       object_at h' a = Some o /\
       object_at h' other = Some {| m_queue := 0; m_version := 0 |} /\
       calls h' = calls h) /\
  (forall h this_ other t o,
     object_at h this_ = Some t -> object_at h other = Some o -> this_ <> other ->
     exists h', move_assign this_ other h = Some h' /\
       object_at h' this_ = Some o /\
       object_at h' other = Some {| m_queue := 0; m_version := m_version o |} /\
       calls h' = calls h ++ (if decide (m_queue t = 0) then []
                              else [clReleaseCommandQueue (m_queue t)])) /\
  (forall h this_ t,
     object_at h this_ = Some t -> copy_assign this_ this_ h = Some h) /\
  (forall h this_ t,
     object_at h this_ = Some t ->
     exists h', move_assign this_ this_ h = Some h' /\
       object_at h' this_ = Some {| m_queue := 0; m_version := m_version t |} /\
       (forall b, b <> this_ -> object_at h' b = object_at h b) /\
       calls h' = calls h ++ (if decide (m_queue t = 0) then []
                              else [clReleaseCommandQueue (m_queue t)])) /\
  (forall h this_ t,
     object_at h this_ = Some t ->
     (m_queue t = 0 ->
        destroy be this_ h
        = Some {| objects := <[this_ := None]> (objects h); calls := calls h |}) /\
     (m_queue t <> 0 ->
        status (respond be (calls h) (clReleaseCommandQueue (m_queue t))) = CL_SUCCESS ->
        destroy be this_ h
        = Some {| objects := <[this_ := None]> (objects h);
                  calls := calls h ++ [clReleaseCommandQueue (m_queue t)] |})) /\
  (forall ops h h' q,
     q <> 0 -> lifecycle_run be ops h = Some h' ->
     exists new, calls h' = calls h ++ new /\
       releases q new + holders q (objects h') = retains q new + holders q (objects h) /\
       forall pre, pre `prefix_of` new ->
         releases q pre <= retains q pre + holders q (objects h)).
Proof.
  split; [exact copy_construct_spec|].
  split; [exact copy_assign_spec|].
  split; [exact move_construct_spec|].
  split; [exact move_assign_spec|].
  split; [exact copy_assign_self_spec|].
  split; [exact move_assign_self_spec|].
  split; [exact (destroy_spec be)|].
  intros ops h h' q Hq Hrun. by eapply lifecycle_run_counts.
Qed.

Lemma handle_lifecycle_reference_counting_witness :
  (exists a h', copy_construct 0 sample_heap = Some (a, h') /\
     calls h' = [clRetainCommandQueue 7]) /\
  (exists h', copy_assign 1 0 sample_heap = Some h' /\
     calls h' = [clReleaseCommandQueue 9; clRetainCommandQueue 7]) /\
  (exists a h', move_construct 0 sample_heap = Some (a, h') /\
     object_at h' 0 = Some {| m_queue := 0; m_version := 0 |} /\ calls h' = []) /\
  (exists h', move_assign 1 0 sample_heap = Some h' /\
     object_at h' 0 = Some {| m_queue := 0; m_version := 120 |} /\
     calls h' = [clReleaseCommandQueue 9]) /\
  copy_assign 0 0 sample_heap = Some sample_heap /\
  (exists h', move_assign 0 0 sample_heap = Some h' /\
     object_at h' 0 = Some {| m_queue := 0; m_version := 120 |} /\
     calls h' = [clReleaseCommandQueue 7]) /\
  destroy (sample_backend 120 0) 0 sample_heap
  = Some {| objects := [None; Some {| m_queue := 9; m_version := 0 |}];
            calls := [clReleaseCommandQueue 7] |} /\
  (exists h',
     lifecycle_run (sample_backend 120 0)
       [CopyConstruct 0; MoveAssign 1 0; Destroy 2; CopyAssign 0 1; Destroy 1; Destroy 0]
       sample_heap = Some h' /\
     forall pre, pre `prefix_of` calls h' ->
       releases 7 pre <= retains 7 pre + holders 7 (objects sample_heap)).
Proof.
  destruct (handle_lifecycle_reference_counting (sample_backend 120 0))
    as (Hcc & Hca & Hmc & Hma & Hcs & Hms & Hd & Hrun).
  split; [|split; [|split; [|split; [|split; [|split; [|split]]]]]].
  - destruct (Hcc sample_heap 0%nat {| m_queue := 7; m_version := 120 |})
      as (a & h' & E & _ & _ & Hc); [reflexivity | simpl; lia |].
    exists a, h'. split; [exact E | exact Hc].
  - destruct (Hca sample_heap 1%nat 0%nat {| m_queue := 9; m_version := 0 |}
                {| m_queue := 7; m_version := 120 |})
      as (h' & E & _ & _ & Hc); [reflexivity | reflexivity | lia | simpl; lia |].
    exists h'. split; [exact E | exact Hc].
  - destruct (Hmc sample_heap 0%nat {| m_queue := 7; m_version := 120 |})
      as (a & h' & E & _ & Hsrc & Hc); [reflexivity |].
    exists a, h'. split; [exact E | split; [exact Hsrc | exact Hc]].
  - destruct (Hma sample_heap 1%nat 0%nat {| m_queue := 9; m_version := 0 |}
                {| m_queue := 7; m_version := 120 |})
      as (h' & E & _ & Hsrc & Hc); [reflexivity | reflexivity | lia |].
    exists h'. split; [exact E | split; [exact Hsrc | exact Hc]].
  - exact (Hcs sample_heap 0%nat {| m_queue := 7; m_version := 120 |} eq_refl).
  - destruct (Hms sample_heap 0%nat {| m_queue := 7; m_version := 120 |})
      as (h' & E & Hself & _ & Hc); [reflexivity |].
    exists h'. split; [exact E | split; [exact Hself | exact Hc]].
  - destruct (Hd sample_heap 0%nat {| m_queue := 7; m_version := 120 |}) as [_ Hnz];
      [reflexivity |].
    apply Hnz; [simpl; lia | reflexivity].
  - eexists. split; [reflexivity|].
    match goal with |- forall pre, pre `prefix_of` calls ?hf -> _ =>
      destruct (Hrun
        [CopyConstruct 0; MoveAssign 1 0; Destroy 2; CopyAssign 0 1; Destroy 1; Destroy 0]
        sample_heap hf 7) as (new & Hnew & _ & Hpre); [lia | reflexivity |]
    end.
    simpl in Hnew. subst new. exact Hpre.
Defined.

(** C6 as worded fails when an object is assigned to itself: copy
    assignment then retains nothing, and move assignment releases the
    handle and leaves the object null instead of handing the id over. *)
Lemma self_assignment_breaks_unconditional_contract :
  ~ copy_assign_always_retains_once /\ ~ move_assign_always_transfers.
Proof.
  split.
  - intros H.
    specialize (H sample_heap sample_heap 0%nat 0%nat
                  {| m_queue := 7; m_version := 120 |}
                  {| m_queue := 7; m_version := 120 |}
                  eq_refl eq_refl).
    assert (retains 7 [] = retains 7 [] + 1) as Hr
      by (apply H; [simpl; lia | reflexivity]).
    discriminate Hr.
  - intros H.
    destruct (H sample_heap
                {| objects := [Some {| m_queue := 0; m_version := 120 |};
                               Some {| m_queue := 9; m_version := 0 |}];
                   calls := [clReleaseCommandQueue 7] |}
                0%nat 0%nat
                {| m_queue := 7; m_version := 120 |}
                {| m_queue := 7; m_version := 120 |}
                eq_refl eq_refl eq_refl) as (t' & Ht' & Hq).
    injection Ht' as <-. simpl in Hq. discriminate Hq.
Qed.

(** C9.  Copy-assigning a queue object to itself changes neither its
    native id nor its cached version and issues no driver call: the heap
    and the log are exactly what they were. *)
Theorem copy_assign_self_is_noop (h : heap) (a : nat) (q : command_queue) :
  object_at h a = Some q -> copy_assign a a h = Some h.
Proof.
  intros Hq. unfold copy_assign. rewrite Hq. simpl.
  by rewrite bool_decide_false by (intros Hne; by apply Hne).
Qed.

Lemma copy_assign_self_is_noop_witness :
  copy_assign 0 0 sample_heap = Some sample_heap.
Proof.
  apply (copy_assign_self_is_noop sample_heap 0 {| m_queue := 7; m_version := 120 |}).
  reflexivity.
Defined.

(** C8.  The cached version uses 0 for "unknown".  A queue constructed
    null, or from a raw native id, starts with cached version 0.
    [get_version] asks the device only when the cached value is 0 and then
    stores the answer; with a non-zero cached value it returns that value
    and leaves the state, log included, untouched.  Hence, once a call has
    resolved a (non-zero) version, every later call returns it without
    asking again, whatever was logged in between. *)
Theorem get_version_lazy_memoized (be : backend) :
  (forall h,
     object_at (snd (construct_null h)) (fst (construct_null h))
     = Some {| m_queue := 0; m_version := 0 |}) /\
  (forall queue retain h,
     object_at (snd (construct_from queue retain h)) (fst (construct_from queue retain h))
     = Some {| m_queue := queue; m_version := 0 |}) /\
  (forall st,
     m_version (this st) = 0 ->
     get_version be st =
       (Returned (queue_device_version be (m_queue (this st))),
        {| this := {| m_queue := m_queue (this st);
                      m_version := queue_device_version be (m_queue (this st)) |};
           log := log st ++ [device_get_version (m_queue (this st))] |})) /\
  (forall st,
     m_version (this st) <> 0 ->
     get_version be st = (Returned (m_version (this st)), st)) /\
  (forall st v st1,
     get_version be st = (Returned v, st1) -> v <> 0 ->
     m_queue (this st1) = m_queue (this st) /\
     m_version (this st1) = v /\
     forall later,
       get_version be {| this := this st1; log := later |}
       = (Returned v, {| this := this st1; log := later |})).
Proof.
  split; [intros h; apply object_at_allocate|].
  split; [intros queue retain h; apply object_at_allocate|].
  split; [exact (get_version_unknown be)|].
  split; [exact (get_version_cached be)|].
  intros st v st1 Hg Hv.
  assert (m_queue (this st1) = m_queue (this st) /\ m_version (this st1) = v) as [Hq Hm].
  { unfold get_version in Hg.
    destruct (Z.eqb_spec (m_version (this st)) 0); injection Hg as <- <-; done. }
  split; [done|]. split; [done|].
  intros later. rewrite get_version_cached; simpl; congruence.
Qed.

Lemma get_version_lazy_memoized_witness :
  get_version (sample_backend 120 0) (sample_queue 0)
  = (Returned 120,
     {| this := {| m_queue := 7; m_version := 120 |}; log := [device_get_version 7] |}) /\
  get_version (sample_backend 200 0) (sample_queue 120)
  = (Returned 120, sample_queue 120) /\
  forall later,
    get_version (sample_backend 120 0)
      {| this := {| m_queue := 7; m_version := 120 |}; log := later |}
    = (Returned 120, {| this := {| m_queue := 7; m_version := 120 |}; log := later |}).
Proof.
  destruct (get_version_lazy_memoized (sample_backend 120 0)) as (_ & _ & Hu & _ & Hl).
  destruct (get_version_lazy_memoized (sample_backend 200 0)) as (_ & _ & _ & Hc & _).
  split; [|split].
  - apply (Hu (sample_queue 0)). reflexivity.
  - apply (Hc (sample_queue 120)). simpl. lia.
  - destruct (Hl (sample_queue 0) 120
                {| this := {| m_queue := 7; m_version := 120 |};
                   log := [device_get_version 7] |}) as (_ & _ & H);
      [reflexivity | lia | exact H].
Defined.

(** ** Version gates *)


Lemma get_version_log (be : backend) (st st' : state) (v : Z) :
  get_version be st = (Returned v, st') ->
  log st' = log st \/ log st' = log st ++ [device_get_version (m_queue (this st))].
Proof.
  unfold get_version. destruct (m_version (this st) =? 0); intros [= <- <-]; auto.
Qed.

(** Unfold one method down to the primitives of the monad. *)
Ltac unfold_method :=
  unfold run_gated,
    enqueue_read_buffer_rect, enqueue_write_buffer_rect, enqueue_copy_buffer_rect,
    enqueue_fill_buffer, enqueue_fill_image, enqueue_migrate_memory_objects,
    enqueue_barrier_events, enqueue_marker_events,
    enqueue_svm_memcpy, enqueue_svm_fill, enqueue_svm_free, enqueue_svm_map,
    enqueue_svm_unmap,
    bind, get_m_queue, get_context, BOOST_ASSERT, BOOST_THROW_EXCEPTION, ret.




(** ** Driver failures *)

(** C4 at its failing input.  On a 1.2 queue whose driver answers every
    call with [CL_OUT_OF_RESOURCES] (-5), both overloads of
    [enqueue_barrier] issue their call and return normally, the status
    being dropped, whereas [enqueue_marker] next to them throws
    [opencl_error(-5)] as the claim requires. *)
Lemma enqueue_barrier_discards_backend_status :
  status (respond (sample_backend 120 (-5)) [] (clEnqueueBarrierWithWaitList 7 [] false))
  = -5 /\
  enqueue_barrier (sample_backend 120 (-5)) (sample_queue 120)
  = (Returned tt,
     {| this := {| m_queue := 7; m_version := 120 |};
        log := [clEnqueueBarrierWithWaitList 7 [] false] |}) /\
  enqueue_barrier_events (sample_backend 120 (-5)) [3] None (sample_queue 120)
  = (Returned None,
     {| this := {| m_queue := 7; m_version := 120 |};
        log := [clEnqueueBarrierWithWaitList 7 [3] false] |}) /\
  enqueue_marker (sample_backend 120 (-5)) None (sample_queue 120)
  = (Thrown (opencl_error (-5)),
     {| this := {| m_queue := 7; m_version := 120 |};
        log := [clEnqueueMarkerWithWaitList 7 [] false] |}).
Proof. repeat split; reflexivity. Qed.

(** The defect does not depend on the driver or on the version: with a
    non-null queue the nullary [enqueue_barrier] always returns. *)
Lemma enqueue_barrier_always_returns (be : backend) (st : state) :
  m_queue (this st) <> 0 -> fst (enqueue_barrier be st) = Returned tt.
Proof.
  intros Hq. unfold enqueue_barrier, bind, get_m_queue, BOOST_ASSERT, get_version, cl, ret.
  rewrite nonzero_true by done.
  destruct (m_version (this st) =? 0); simpl;
    match goal with |- context [if ?b then _ else _] => destruct b end; reflexivity.
Qed.

(** ** Assertions on buffer ranges *)

(** C5 at its failing input.  Reading or writing 4 bytes at offset 8 of a
    10-byte buffer passes every assertion -- only [size <= buffer.size()]
    is checked -- and the request reaches the driver, although
    [offset + size] is 12.  [enqueue_copy_buffer] and [enqueue_fill_buffer]
    stop on their assertion for the same range. *)
Lemma read_write_range_assertion_ignores_offset :
  buffer_size sample_buffer < 8 + 4 /\
  enqueue_read_buffer (sample_backend 120 0) sample_buffer 8 4 64 [] None (sample_queue 120)
  = (Returned None,
     {| this := {| m_queue := 7; m_version := 120 |};
        log := [clEnqueueReadBuffer 7 11 true 8 4 64 [] false] |}) /\
  enqueue_write_buffer (sample_backend 120 0) sample_buffer 8 4 64 [] None (sample_queue 120)
  = (Returned None,
     {| this := {| m_queue := 7; m_version := 120 |};
        log := [clEnqueueWriteBuffer 7 11 true 8 4 64 [] false] |}) /\
  enqueue_copy_buffer (sample_backend 120 0) sample_buffer sample_buffer 8 0 4 [] None
    (sample_queue 120)
  = (AssertionFailed, sample_queue 120) /\
  enqueue_fill_buffer (sample_backend 120 0) sample_buffer 64 1 8 4 [] None
    (sample_queue 120)
  = (AssertionFailed, sample_queue 120).
Proof. repeat split; reflexivity. Qed.

(** What the assertions of the three methods do establish when they pass,
    for ranges that do not wrap around [size_t]. *)
Lemma buffer_assertions_passed (be : backend) (b : buffer) (offset size : size_t)
    (host_ptr : pointer) (events : wait_list) (event_ : option event) (st : state) :
  fst (enqueue_read_buffer be b offset size host_ptr events event_ st) <> AssertionFailed ->
  m_queue (this st) <> 0 /\
  buffer_context b = queue_context be (m_queue (this st)) /\
  size <= buffer_size b.
Proof.
  unfold enqueue_read_buffer, bind, get_m_queue, get_context, BOOST_ASSERT, nonzero.
  destruct (Z.eqb_spec (m_queue (this st)) 0); simpl; [done|].
  destruct (Z.leb_spec size (buffer_size b)); simpl; [|done].
  destruct (Z.eqb_spec (buffer_context b) (queue_context be (m_queue (this st))));
    simpl; [|done].
  done.
Qed.

Lemma copy_buffer_assertions_passed (be : backend) (src dst : buffer)
    (src_offset dst_offset size : size_t)
    (events : wait_list) (event_ : option event) (st : state) :
  0 <= src_offset -> 0 <= dst_offset -> 0 <= size ->
  src_offset + size < SIZE_MODULUS -> dst_offset + size < SIZE_MODULUS ->
  fst (enqueue_copy_buffer be src dst src_offset dst_offset size events event_ st)
    <> AssertionFailed ->
  m_queue (this st) <> 0 /\
  buffer_context src = queue_context be (m_queue (this st)) /\
  buffer_context dst = queue_context be (m_queue (this st)) /\
  src_offset + size <= buffer_size src /\
  dst_offset + size <= buffer_size dst.
Proof.
  intros Hs Hd Hz Hws Hwd.
  unfold enqueue_copy_buffer, bind, get_m_queue, get_context, BOOST_ASSERT, nonzero, size_add.
  rewrite !Z.mod_small by lia.
  destruct (Z.eqb_spec (m_queue (this st)) 0); simpl; [done|].
  destruct (Z.leb_spec (src_offset + size) (buffer_size src)); simpl; [|done].
  destruct (Z.leb_spec (dst_offset + size) (buffer_size dst)); simpl; [|done].
  destruct (Z.eqb_spec (buffer_context src) (queue_context be (m_queue (this st))));
    simpl; [|done].
  destruct (Z.eqb_spec (buffer_context dst) (queue_context be (m_queue (this st))));
    simpl; [|done].
  done.
Qed.

(** ** Single work-item dispatch *)

(** C10.  On a non-null queue in the kernel's context, [enqueue_task] with
    a resolved version of at least 200 is [enqueue_nd_range_kernel] with
    work dimension 1, a null global offset and global and local sizes both
    [{1}], run from the state in which the version has been resolved; for
    lower versions the call issued is [clEnqueueTask].  On either path a
    status other than [CL_SUCCESS] is thrown as [opencl_error] carrying
    that status, and [CL_SUCCESS] returns the event. *)
Theorem enqueue_task_dispatch
    (be : backend) (kernel_ : kernel) (events : wait_list) (event_ : option event)
    (st st' : state) (v : Z) :
  m_queue (this st) <> 0 ->
  kernel_context kernel_ = queue_context be (m_queue (this st)) ->
  get_version be st = (Returned v, st') ->
  (200 <= v ->
     enqueue_task be kernel_ events event_ st
     = enqueue_nd_range_kernel be kernel_ 1 None (Some [1]) (Some [1]) events event_ st') /\
  (let q := m_queue (this st) in
   let c := if 200 <=? v
            then clEnqueueNDRangeKernel q (kernel_get kernel_) 1 None (Some [1]) (Some [1])
                   events (event_ptr event_)
            else clEnqueueTask q (kernel_get kernel_) events (event_ptr event_) in
   let r := respond be (log st') c in
   enqueue_task be kernel_ events event_ st
   = (if status r =? CL_SUCCESS then Returned (event_written event_ r)
      else Thrown (opencl_error (status r)),
      {| this := this st'; log := log st' ++ [c] |})).
Proof.
  intros Hq Hctx Hg.
  assert (m_queue (this st') = m_queue (this st)) as Hq'.
  { unfold get_version in Hg.
    destruct (m_version (this st) =? 0); injection Hg as <- <-; reflexivity. }
  split.
  - intros Hv.
    unfold enqueue_task, enqueue_nd_range_kernel, bind, get_m_queue, get_context,
      BOOST_ASSERT.
    change (0 <? 1) with true.
    repeat (rewrite ?Hq', ?(nonzero_true _ Hq), ?Hctx, ?Z.eqb_refl, ?Hg; cbn beta iota).
    destruct (Z.leb_spec 200 v); [reflexivity | lia].
  - cbv zeta.
    unfold enqueue_task, bind, get_m_queue, get_context, BOOST_ASSERT.
    rewrite (nonzero_true _ Hq). cbn beta iota.
    rewrite Hctx, Z.eqb_refl. cbn beta iota.
    rewrite Hg.
    destruct (200 <=? v); unfold cl, check_ret, BOOST_THROW_EXCEPTION, ret;
      cbn beta iota; unfold size_t;
      match goal with |- context [?x =? CL_SUCCESS] => destruct (x =? CL_SUCCESS) end;
      reflexivity.
Qed.

Lemma enqueue_task_dispatch_witness :
  enqueue_task (sample_backend 200 0) sample_kernel [3] None (sample_queue 0)
  = enqueue_nd_range_kernel (sample_backend 200 0) sample_kernel 1
      None (Some [1]) (Some [1]) [3] None
      {| this := {| m_queue := 7; m_version := 200 |}; log := [device_get_version 7] |} /\
  enqueue_task (sample_backend 120 (-5)) sample_kernel [3] None (sample_queue 120)
  = (Thrown (opencl_error (-5)),
     {| this := {| m_queue := 7; m_version := 120 |};
        log := [clEnqueueTask 7 13 [3] false] |}).
Proof.
  split.
  - refine (proj1 (enqueue_task_dispatch (sample_backend 200 0) sample_kernel [3] None
                     (sample_queue 0) _ 200 _ eq_refl eq_refl) _).
    + simpl. lia.
    + lia.
  - refine (proj2 (enqueue_task_dispatch (sample_backend 120 (-5)) sample_kernel [3] None
                     (sample_queue 120) _ 120 _ eq_refl eq_refl)).
    simpl. lia.
Defined.

(** ** Asynchronous variants *)

Lemma issued_app (st : state) (t : command_queue) (cs : list action) :
  issued st {| this := t; log := log st ++ cs |} = cs.
Proof. unfold issued. simpl. by rewrite drop_app_length. Qed.


Lemma issued_same (st : state) : issued st st = [].
Proof. unfold issued. by rewrite drop_all. Qed.


(** Case analysis on every test a method makes, then evaluation. *)
Ltac run_method :=
  unfold require_version, check_ret;
  unfold bind, get_version, get_m_queue, get_context, BOOST_ASSERT,
    BOOST_THROW_EXCEPTION, cl, ret;
  cbn beta iota;
  repeat match goal with
  | |- context [if ?b then _ else _] =>
      lazymatch b with
      | context [if _ then _ else _] => fail
      | _ => destruct b eqn:?
      end; cbn beta iota
  end.








(** ** The element walk *)

(** A loop that advances a pointer by [step] and appends what [emit]
    produces at each index. *)
Lemma for_loop_collect {V : Type} (step : Z) (emit : size_t -> pointer -> list V)
    (body : size_t -> pointer * list V -> pointer * list V) :
  (forall j p out, body j (p, out) = (p + step, out ++ emit j p)) ->
  forall (n : nat) (i : size_t) (p : pointer) (out : list V),
    for_loop n i body (p, out)
    = (p + Z.of_nat n * step,
       out ++ (k ← seqZ 0 (Z.of_nat n); emit (i + k) (p + k * step))).
Proof.
  intros Hbody. induction n as [|n IH]; intros i p out.
  - simpl. f_equal; [lia | by rewrite app_nil_r].
  - cbn [for_loop]. rewrite Hbody, IH. f_equal; [lia|].
    rewrite <- app_assoc. f_equal.
    replace (Z.of_nat (S n)) with (Z.succ (Z.of_nat n)) by lia.
    rewrite (seqZ_cons 0 (Z.succ (Z.of_nat n))) by lia. rewrite bind_cons.
    replace (Z.pred (Z.succ (Z.of_nat n))) with (Z.of_nat n) by lia.
    rewrite Z.add_0_r, Z.mul_0_l, Z.add_0_r. f_equal.
    replace (seqZ (Z.succ 0) (Z.of_nat n)) with (Z.add 1 <$> seqZ 0 (Z.of_nat n))
      by (by rewrite fmap_add_seqZ).
    rewrite list_fmap_bind. apply list_bind_ext; [|done].
    intros k. unfold compose. f_equal; lia.
Qed.

Lemma for_range_collect {V : Type} (step : Z) (emit : size_t -> pointer -> list V)
    (body : size_t -> pointer * list V -> pointer * list V)
    (lo hi : size_t) (p : pointer) (out : list V) :
  (forall j p out, body j (p, out) = (p + step, out ++ emit j p)) ->
  for_range lo hi body (p, out)
  = (p + Z.of_nat (Z.to_nat (hi - lo)) * step,
     out ++ (k ← seqZ 0 (hi - lo); emit (lo + k) (p + k * step))).
Proof.
  intros Hbody. unfold for_range. rewrite (for_loop_collect step emit body Hbody).
  f_equal. f_equal. apply list_bind_ext; [done|].
  unfold seqZ. by rewrite Nat2Z.id.
Qed.

Lemma length_bind_const {A B : Type} (f : A -> list B) (n : nat) (l : list A) :
  (forall x, length (f x) = n) -> length (l ≫= f) = (length l * n)%nat.
Proof.
  intros Hf. induction l as [|x l IH]; [done|].
  rewrite bind_cons, length_app, Hf, IH. simpl. lia.
Qed.

(** The specified walk has [region3[0] * region3[1] * region3[2]] elements. *)
Lemma region_elements_length (pImage3D : pointer) (origin3 : size3) (r0 r1 r2 : size_t)
    (row_pitch slice_pitch element_size : size_t) :
  0 <= r0 -> 0 <= r1 -> 0 <= r2 ->
  Z.of_nat (length (region_elements pImage3D origin3 (r0, r1, r2)
                      row_pitch slice_pitch element_size))
  = r0 * r1 * r2.
Proof.
  intros H0 H1 H2. destruct origin3 as [[o0 o1] o2]. unfold region_elements.
  rewrite (length_bind_const _ (Z.to_nat r1 * Z.to_nat r0)).
  - rewrite length_seqZ. nia.
  - intros kd. rewrite (length_bind_const _ (Z.to_nat r0)).
    + by rewrite length_seqZ.
    + intros kh. rewrite (length_bind_const _ 1%nat); [|done].
      rewrite length_seqZ. lia.
Qed.

(** What the three loops visit: the box from [origin3] up to, but excluding,
    the corner [region3] -- the extent along each axis is
    [region3[i] - origin3[i]], not [region3[i]].  Addresses do follow the
    pitches. *)
Lemma walk_image_visits_box (pImage3D : pointer) (o0 o1 o2 r0 r1 r2 : size_t)
    (row_pitch slice_pitch element_size : size_t) :
  walk_image pImage3D (o0, o1, o2) (r0, r1, r2) row_pitch slice_pitch element_size
  = region_elements pImage3D (o0, o1, o2) (r0 - o0, r1 - o1, r2 - o2)
      row_pitch slice_pitch element_size.
Proof.
  unfold walk_image, region_elements.
  set (emit_w := fun (h d w : size_t) (p : pointer) =>
         [{| visit_pElem := p; visit_w := w; visit_h := h; visit_d := d |}]).
  set (emit_h := fun (d h : size_t) (p : pointer) =>
         k ← seqZ 0 (r0 - o0); emit_w h d (o0 + k) (p + k * element_size)).
  set (emit_d := fun (d : size_t) (p : pointer) =>
         k ← seqZ 0 (r1 - o1); emit_h d (o1 + k) (p + k * row_pitch)).
  rewrite (for_range_collect slice_pitch emit_d).
  - cbn [snd app]. apply list_bind_ext; [|done]. intros kd.
    unfold emit_d. apply list_bind_ext; [|done]. intros kh.
    unfold emit_h. apply list_bind_ext; [|done]. intros kw.
    unfold emit_w. reflexivity.
  - intros d p out.
    rewrite (for_range_collect row_pitch (emit_h d)); [reflexivity|].
    intros h p' out'.
    rewrite (for_range_collect element_size (emit_w h d)); reflexivity.
Qed.

(** With the origin at zero the walk is the one specified. *)
Lemma walk_image_from_zero (pImage3D : pointer) (region3 : size3)
    (row_pitch slice_pitch element_size : size_t) :
  walk_image pImage3D (0, 0, 0) region3 row_pitch slice_pitch element_size
  = region_elements pImage3D (0, 0, 0) region3 row_pitch slice_pitch element_size.
Proof.
  destruct region3 as [[r0 r1] r2]. rewrite walk_image_visits_box.
  by rewrite !Z.sub_0_r.
Qed.

(** C2 at its failing input.  For a region of two elements along the
    width that starts at [x = 1], the specified walk covers the elements
    at [x = 1] and [x = 2]; the loops stop at [w < region3[0] = 2] and
    call the function for [x = 1] only.  With the origin at [x = 2] they
    call it for no element at all. *)
Lemma walk_image_misses_elements_off_origin :
  region_elements 4096 (1, 0, 0) (2, 1, 1) 64 1024 4
  = [{| visit_pElem := 4096; visit_w := 1; visit_h := 0; visit_d := 0 |};
     {| visit_pElem := 4100; visit_w := 2; visit_h := 0; visit_d := 0 |}] /\
  walk_image 4096 (1, 0, 0) (2, 1, 1) 64 1024 4
  = [{| visit_pElem := 4096; visit_w := 1; visit_h := 0; visit_d := 0 |}] /\
  walk_image 4096 (2, 0, 0) (2, 1, 1) 64 1024 4 = [] /\
  fst (enqueue_walk_image (sample_backend 120 0) sample_image map_write
         (Some (1, 0, 0)) (Some (2, 1, 1)) [] None (sample_queue 120)) = Returned None /\
  log (snd (enqueue_walk_image (sample_backend 120 0) sample_image map_write
              (Some (1, 0, 0)) (Some (2, 1, 1)) [] None (sample_queue 120)))
  = [clEnqueueMapImage 7 17 true map_write (1, 0, 0) (2, 1, 1) [] false;
     walk_elemets {| visit_pElem := 4096; visit_w := 1; visit_h := 0; visit_d := 0 |};
     clEnqueueUnmapMemObject 7 17 4096 [] false].
Proof. repeat split; reflexivity. Qed.

(** ** Default origin and region *)




(** * Further properties of the queue's methods *)

Lemma issued_nested (st : state) (t : command_queue) (cs : list action) :
  issued st {| this := t; log := log st ++ cs |} = cs.
Proof. apply issued_app. Qed.

Lemma accepted_walks (be : backend) (vs : list visit) (history rest : list action) :
  accepted be history (map walk_elemets vs ++ rest)
  <-> accepted be (history ++ map walk_elemets vs) rest.
Proof.
  revert history. induction vs as [|v vs IH]; intros history; simpl.
  - by rewrite app_nil_r.
  - rewrite IH, <- app_assoc. simpl. split; [by intros [_ H] | by split].
Qed.

(** ** Driver failures are never swallowed *)

Ltac unfold_request :=
  cbn [run_request run_gated run_sync run_async];
  unfold void,
    enqueue_read_buffer_async, enqueue_write_buffer_async, enqueue_copy_buffer_async,
    enqueue_fill_buffer_async, enqueue_nd_range_kernel_async,
    enqueue_1d_range_kernel_async, enqueue_svm_memcpy_async,
    enqueue_1d_range_kernel,
    enqueue_read_buffer, enqueue_write_buffer, enqueue_copy_buffer,
    enqueue_nd_range_kernel,
    enqueue_read_buffer_rect, enqueue_write_buffer_rect, enqueue_copy_buffer_rect,
    enqueue_fill_buffer, enqueue_fill_image, enqueue_migrate_memory_objects,
    enqueue_barrier_events, enqueue_marker_events, enqueue_barrier, enqueue_marker,
    enqueue_svm_memcpy, enqueue_svm_fill, enqueue_svm_free, enqueue_svm_map,
    enqueue_svm_unmap, enqueue_task, enqueue_map_buffer,
    enqueue_walk_image, create_user_event, set_callback, call_walk_elemets,
    enqueue_unmap_buffer, enqueue_map_image, enqueue_unmap_mem_object.

(** The log of a finished run, as the calls issued since [st]. *)
Ltac issued_of_run :=
  cbn [snd fst this log];
  rewrite <- ?app_assoc;
  rewrite ?issued_app, ?issued_same;
  cbn [app].

Ltac status_from_test :=
  repeat match goal with
  | H : negb (_ =? CL_SUCCESS) = false |- _ => apply negb_false_iff, Z.eqb_eq in H
  | H : negb (_ =? CL_SUCCESS) = true |- _ => apply negb_true_iff, Z.eqb_neq in H
  end.

Ltac solve_accepted :=
  repeat first
    [ rewrite accepted_walks
    | progress cbn [accepted is_enqueue]
    | split
    | exact I
    | by intros ?
    | intros _; rewrite <- ?app_assoc in *; cbn [app] in *; eassumption ].

(** X1.  When an enqueue method that checks its status returns normally,
    every enqueue call it issued was answered with [CL_SUCCESS]. *)
Theorem returned_means_accepted (be : backend) (rq : enqueue_request) (st st' : state) :
  discards_status rq = false ->
  run_request be rq st = (Returned tt, st') ->
  accepted be (log st) (issued st st').
Proof.
  intros Hd.
  destruct rq as [r ? e|r ? e|r ?| | | | |? ? o rg ? e|? ? e| |e];
    try destruct r; try discriminate Hd;
    try destruct e; try destruct o; try destruct rg;
    unfold_request; run_method; intros [= <-]; status_from_test;
    issued_of_run; solve_accepted.
Qed.

Lemma returned_means_accepted_witness :
  accepted (sample_backend 120 0) []
    [clEnqueueMapImage 7 17 true map_write (0, 0, 0) (2, 1, 1) [] false;
     walk_elemets {| visit_pElem := 4096; visit_w := 0; visit_h := 0; visit_d := 0 |};
     walk_elemets {| visit_pElem := 4100; visit_w := 1; visit_h := 0; visit_d := 0 |};
     clEnqueueUnmapMemObject 7 17 4096 [] false].
Proof.
  exact (returned_means_accepted (sample_backend 120 0)
           (WalkImageOp sample_image map_write None (Some (2, 1, 1)) [] None)
           (sample_queue 120) _ eq_refl eq_refl).
Defined.



(** ** The version thresholds are exact *)

Lemma require_version_reached (be : backend) (minimum v : Z) (st st' : state) :
  get_version be st = (Returned v, st') -> minimum <= v ->
  require_version be minimum st = (Returned tt, st').
Proof.
  intros Hg Hv. unfold require_version, bind. rewrite Hg.
  destruct (Z.ltb_spec v minimum); [lia | reflexivity].
Qed.

Ltac split_tests :=
  repeat match goal with
  | |- context [if ?b then _ else _] =>
      lazymatch b with
      | nonzero _ => destruct b
      | Z.eqb _ _ => destruct b
      | Z.leb _ _ => destruct b
      | negb _ => destruct b
      end; cbn beta iota
  end.

Lemma gated_submitted_when_minimum_met
    (be : backend) (r : gated_request) (events : wait_list) (event_ : option event)
    (st st' : state) (v : Z) :
  get_version be st = (Returned v, st') ->
  minimum_version r <= v ->
  fst (run_gated be r events event_ st) <> AssertionFailed ->
  exists c,
    snd (run_gated be r events event_ st)
    = {| this := this st'; log := log st' ++ [c] |} /\
    is_enqueue c = true.
Proof.
  intros Hg Hv.
  pose proof (fun m H => require_version_reached be m v st st' Hg H) as Hreq.
  destruct r; cbn [minimum_version] in *; unfold_method; split_tests;
    try (intros Hna; by destruct Hna);
    try (rewrite Hreq by lia);
    try (rewrite Hg; destruct (Z.ltb_spec v 120); [lia|]);
    cbn beta iota; split_tests;
    try (intros Hna; by destruct Hna);
    unfold cl, check_ret, BOOST_THROW_EXCEPTION, ret; cbn beta iota; split_tests;
    intros _; eexists; (split; [reflexivity | reflexivity]).
Qed.

(** X3.  A version-gated operation whose minimum is met by the resolved
    version, and whose assertions hold, goes on to the driver: exactly one
    enqueue call follows the resolution of the version, and the queue
    object is left as the resolution left it. *)
Theorem gated_operation_submitted_at_minimum
    (be : backend) (r : gated_request) (events : wait_list) (event_ : option event)
    (st st' : state) (v : Z) :
  get_version be st = (Returned v, st') ->
  minimum_version r <= v ->
  fst (run_gated be r events event_ st) <> AssertionFailed ->
  exists c,
    snd (run_gated be r events event_ st)
    = {| this := this st'; log := log st' ++ [c] |} /\
    is_enqueue c = true.
Proof. exact (gated_submitted_when_minimum_met be r events event_ st st' v). Qed.

Lemma gated_operation_submitted_at_minimum_witness :
  exists c,
    snd (run_gated (sample_backend 110 0)
           (ReadBufferRect sample_buffer (0, 0, 0) (0, 0, 0) (2, 2, 1) 4 0 4 0 64)
           [] None (sample_queue 0))
    = {| this := {| m_queue := 7; m_version := 110 |};
         log := [device_get_version 7] ++ [c] |} /\
    is_enqueue c = true.
Proof.
  refine (gated_operation_submitted_at_minimum (sample_backend 110 0)
            (ReadBufferRect sample_buffer (0, 0, 0) (0, 0, 0) (2, 2, 1) 4 0 4 0 64)
            [] None (sample_queue 0) _ 110 eq_refl _ _).
  - simpl. lia.
  - simpl. discriminate.
Defined.

(** ** What no enqueue method changes *)



(** X5.  Called on a null queue, the methods that assert [m_queue != 0]
    before anything else stop on that assertion, leaving the queue object
    and the log untouched. *)
Theorem null_queue_stops_on_assertion (be : backend) (rq : enqueue_request) (st : state) :
  m_queue (this st) = 0 ->
  asserts_queue_first rq = true ->
  run_request be rq st = (AssertionFailed, st).
Proof.
  intros Hq Ha.
  destruct rq as [r ? ev|r ? ev|r ?| | | | |? ? o rg ? ev|? ? ev| |ev];
    try destruct r; try discriminate Ha;
    unfold_request;
    unfold bind, get_m_queue, get_context, BOOST_ASSERT; cbn beta iota;
    repeat (rewrite ?Hq; cbn [nonzero Z.eqb negb]; cbn beta iota;
            try match goal with
            | |- context [if ?b then _ else _] =>
                lazymatch b with
                | Z.eqb _ _ => destruct b
                | Z.leb _ _ => destruct b
                end
            end);
    reflexivity.
Qed.

Lemma null_queue_stops_on_assertion_witness :
  run_request (sample_backend 200 0)
    (SyncOp (CopyBufferOp sample_buffer sample_buffer 0 0 10) [] None)
    {| this := {| m_queue := 0; m_version := 0 |}; log := [] |}
  = (AssertionFailed, {| this := {| m_queue := 0; m_version := 0 |}; log := [] |}).
Proof.
  apply null_queue_stops_on_assertion; reflexivity.
Defined.

Lemma Forall_enqueue_walks (P : action -> Prop) (vs : list visit) (rest : list action) :
  (forall v, P (walk_elemets v)) -> Forall P rest ->
  Forall P (map walk_elemets vs ++ rest).
Proof.
  intros Hw Hr. apply Forall_app. split; [|done].
  apply Forall_fmap, Forall_forall. intros v _. apply Hw.
Qed.

Lemma issued_calls_carry_queue (be : backend) (rq : enqueue_request)
    (st : state) :
  Forall (fun c => is_enqueue c = true -> call_queue c = m_queue (this st))
    (issued st (snd (run_request be rq st))).
Proof.
  destruct rq as [r ? ev|r ? ev|r ?| | | | |? ? o rg ? ev|? ? ev| |ev];
    try destruct r; try destruct ev; try destruct o; try destruct rg;
    unfold_request; run_method; issued_of_run;
    repeat first
      [ apply Forall_nil_2
      | apply Forall_cons_2; [first [by intros _ | by intros ?]|]
      | apply Forall_enqueue_walks; [by intros ? ?|]
      | apply Forall_fmap, Forall_forall; intros ? _; by intros ? ].
Qed.



(** X7.  The SVM methods and the wait-list marker contain no assertion:
    whatever the queue object holds, a null native id included, they never
    stop on an assertion, and once the version check is passed their call
    goes to the driver with that id. *)
Theorem unasserted_methods_reach_driver
    (be : backend) (r : gated_request) (events : wait_list) (event_ : option event)
    (st st' : state) (v : Z) :
  makes_no_assertion r = true ->
  get_version be st = (Returned v, st') ->
  fst (run_gated be r events event_ st) <> AssertionFailed /\
  (minimum_version r <= v ->
   exists c,
     snd (run_gated be r events event_ st)
     = {| this := this st'; log := log st' ++ [c] |} /\
     is_enqueue c = true /\ call_queue c = m_queue (this st)).
Proof.
  intros Hm Hg.
  assert (m_queue (this st') = m_queue (this st)) as Hq.
  { unfold get_version in Hg.
    destruct (m_version (this st) =? 0); injection Hg as <- <-; reflexivity. }
  assert (fst (run_gated be r events event_ st) <> AssertionFailed) as Hna.
  { destruct r; try discriminate Hm; unfold_method; unfold require_version, bind;
      rewrite Hg; destruct (v <? _); cbn beta iota; try discriminate;
      unfold cl, check_ret, BOOST_THROW_EXCEPTION, ret; cbn beta iota;
      split_tests; discriminate. }
  split; [exact Hna|]. intros Hv.
  destruct (gated_submitted_when_minimum_met be r events event_ st st' v Hg Hv Hna)
    as (c & Hs & Hc).
  exists c. split; [exact Hs|]. split; [exact Hc|].
  pose proof (issued_calls_carry_queue be (GatedOp r events event_) st) as Hall.
  cbn [run_request] in Hall.
  assert (snd (void (run_gated be r events event_) st)
          = snd (run_gated be r events event_ st)) as Hvoid.
  { unfold void, bind, ret. by destruct (run_gated be r events event_ st) as [[?| |] ?]. }
  rewrite Hvoid, Hs in Hall. unfold issued in Hall. cbn [log] in Hall.
  apply get_version_log in Hg as [Hl|Hl]; rewrite Hl in Hall.
  - rewrite drop_app_length in Hall. by apply Forall_cons_1 in Hall as [Hh _]; apply Hh.
  - rewrite <- app_assoc, drop_app_length in Hall.
    apply Forall_cons_1 in Hall as [_ Hall].
    by apply Forall_cons_1 in Hall as [Hh _]; apply Hh.
Qed.

Lemma unasserted_methods_reach_driver_witness :
  exists c,
    snd (run_gated (sample_backend 200 0) (SvmUnmap 64) [] None
           {| this := {| m_queue := 0; m_version := 200 |}; log := [] |})
    = {| this := {| m_queue := 0; m_version := 200 |}; log := [] ++ [c] |} /\
    is_enqueue c = true /\ call_queue c = 0.
Proof.
  exact (proj2 (unasserted_methods_reach_driver (sample_backend 200 0) (SvmUnmap 64) [] None
                  {| this := {| m_queue := 0; m_version := 200 |}; log := [] |} _ 200
                  eq_refl eq_refl)
               ltac:(simpl; lia)).
Defined.

(** ** Version comparison *)

Lemma int_wrap_small (z : Z) : - 2 ^ 31 <= z < 2 ^ 31 -> int_wrap z = z.
Proof. intros Hz. unfold int_wrap. rewrite Z.mod_small; lia. Qed.

(** X8.  For a resolved version [v = M * 100 + m] below [2^31], a minor
    number below 100 and a major number for which [major * 100 + minor]
    stays within [int], [check_device_version(major, minor)] answers
    whether [major.minor] is at most [M.m] in the lexicographic order; it
    resolves the version as [get_version] does and does nothing else. *)
Theorem check_device_version_lexicographic
    (be : backend) (major minor : Z) (st st' : state) (v : Z) :
  get_version be st = (Returned v, st') ->
  0 <= v < 2 ^ 31 ->
  0 <= minor < 100 ->
  - 2 ^ 31 <= major * 100 -> major * 100 + minor < 2 ^ 31 ->
  exists b,
    check_device_version be major minor st = (Returned b, st') /\
    (b = true <-> major < v / 100 \/ (major = v / 100 /\ minor <= v mod 100)).
Proof.
  intros Hg Hv Hm Hlo Hhi. unfold check_device_version, bind, ret. rewrite Hg.
  eexists. split; [reflexivity|].
  unfold int_add, int_mul. rewrite (int_wrap_small (major * 100)) by lia.
  rewrite int_wrap_small by lia.
  unfold int_of_uint. destruct (Z.ltb_spec v (2 ^ 31)); [|lia].
  rewrite Z.leb_le.
  pose proof (Z.div_mod v 100 ltac:(lia)) as Hdm.
  pose proof (Z.mod_pos_bound v 100 ltac:(lia)) as Hb.
  generalize dependent (v / 100). generalize dependent (v mod 100).
  intros m Hb q Hdm. clear Hg. lia.
Qed.

Lemma check_device_version_lexicographic_witness :
  exists b,
    check_device_version (sample_backend 120 0) 1 2 (sample_queue 0)
    = (Returned b,
       {| this := {| m_queue := 7; m_version := 120 |}; log := [device_get_version 7] |}) /\
    (b = true <-> 1 < 120 / 100 \/ (1 = 120 / 100 /\ 2 <= 120 mod 100)).
Proof.
  refine (check_device_version_lexicographic (sample_backend 120 0) 1 2 (sample_queue 0)
            _ 120 eq_refl _ _ _ _); lia.
Defined.

(** X9.  The constant a gated method compares the version with is
    [major * 100 + minor * 10] for the version [major.minor] its
    documentation names, whereas [check_device_version(major, minor)]
    compares with [major * 100 + minor].  So a method that passes its
    version check has [check_device_version] true for its documented
    version, but not conversely: [check_device_version] is true from
    [major * 100 + minor] on, below the method's own threshold when the
    minor number is not 0. *)
Theorem gate_implies_check_device_version
    (be : backend) (r : gated_request) (st st' : state) (v : Z) :
  get_version be st = (Returned v, st') ->
  0 <= v < 2 ^ 31 ->
  let major := fst (documented_version r) in
  let minor := snd (documented_version r) in
  minimum_version r = major * 100 + minor * 10 /\
  (minimum_version r <= v ->
   fst (check_device_version be major minor st) = Returned true) /\
  (fst (check_device_version be major minor st) = Returned true
   <-> major * 100 + minor <= v).
Proof.
  intros Hg Hv major minor. subst major minor.
  unfold check_device_version, bind, ret. rewrite Hg. cbn [fst].
  unfold int_of_uint. destruct (Z.ltb_spec v (2 ^ 31)); [|lia].
  destruct r; cbn [minimum_version documented_version fst snd];
    unfold int_add, int_mul;
    rewrite (int_wrap_small (_ * 100)) by lia; rewrite int_wrap_small by lia;
    (split; [reflexivity|]);
    (split; [intros Hle; f_equal; apply Z.leb_le; lia|]);
    (split; [intros [= Hb]; apply Z.leb_le in Hb; lia
            | intros Hle; f_equal; apply Z.leb_le; lia]).
Qed.

Lemma gate_implies_check_device_version_witness :
  fst (check_device_version (sample_backend 200 0) 2 0 (sample_queue 0)) = Returned true /\
  (fst (check_device_version (sample_backend 102 0) 1 2 (sample_queue 0)) = Returned true
   <-> 1 * 100 + 2 <= 102) /\
  run_gated (sample_backend 102 0) (FillBuffer sample_buffer 64 1 0 10) [] None
    (sample_queue 0)
  = (Thrown (opencl_error CL_INVALID_DEVICE),
     {| this := {| m_queue := 7; m_version := 102 |}; log := [device_get_version 7] |}).
Proof.
  split; [|split].
  - refine (proj1 (proj2 (gate_implies_check_device_version (sample_backend 200 0)
                            (SvmFree 64) (sample_queue 0) _ 200 eq_refl _)) _).
    + lia.
    + simpl. lia.
  - refine (proj2 (proj2 (gate_implies_check_device_version (sample_backend 102 0)
                            (FillBuffer sample_buffer 64 1 0 10) (sample_queue 0) _ 102
                            eq_refl _))).
    lia.
  - reflexivity.
Defined.

(** ** Comparison of queue objects *)

Lemma queue_eq_refl (o : command_queue) : queue_eq o o = true.
Proof. unfold queue_eq. apply Z.eqb_refl. Qed.

(** X10.  Under [operator==], which compares native ids only: a copy,
    constructed or assigned, compares equal to its source, self-assignment
    included; a move-constructed object compares equal to what its source
    was; and after any move the source compares equal to a null queue.
    [operator!=] answers the opposite of [operator==]. *)
Theorem copies_compare_equal :
  (forall h other a h',
     copy_construct other h = Some (a, h') ->
     exists o, object_at h other = Some o /\ object_at h' other = Some o /\
       exists n, object_at h' a = Some n /\ queue_eq n o = true) /\
  (forall h this_ other h',
     copy_assign this_ other h = Some h' ->
     exists t o, object_at h' this_ = Some t /\ object_at h' other = Some o /\
       queue_eq t o = true) /\
  (forall h other a h',
     move_construct other h = Some (a, h') ->
     exists o n s, object_at h other = Some o /\ object_at h' a = Some n /\
       queue_eq n o = true /\
       object_at h' other = Some s /\ queue_eq s {| m_queue := 0; m_version := 0 |} = true) /\
  (forall h this_ other h',
     move_assign this_ other h = Some h' ->
     exists s, object_at h' other = Some s /\
       queue_eq s {| m_queue := 0; m_version := 0 |} = true) /\
  (forall a b, queue_ne a b = negb (queue_eq a b)).
Proof.
  split; [|split; [|split; [|split]]].
  - intros h other a h'. unfold copy_construct.
    destruct (object_at h other) as [[q v]|] eqn:Ho; simpl; [|done].
    intros [= <- <-]. eexists. split; [reflexivity|]. split.
    + by apply (object_at_allocate_old {| m_queue := q; m_version := v |} _ h).
    + eexists. split;
        [apply (object_at_allocate {| m_queue := q; m_version := v |} _ h)
        |apply queue_eq_refl].
  - intros h this_ other h'. unfold copy_assign.
    destruct (object_at h this_) as [t|] eqn:Ht; simpl; [|done].
    destruct (object_at h other) as [[q v]|] eqn:Ho; simpl; [|done].
    case_bool_decide as Hne; intros [= <-].
    + exists {| m_queue := q; m_version := v |}, {| m_queue := q; m_version := v |}.
      split; [by eapply (object_at_insert_eq h)|].
      split; [|apply queue_eq_refl].
      etrans; [|exact Ho]. by eapply (object_at_insert_ne h).
    + assert (this_ = other) as -> by (destruct (decide (this_ = other)); [done|by destruct Hne]).
      exists t, t. split; [done|]. split; [done | apply queue_eq_refl].
  - intros h other a h'. unfold move_construct.
    destruct (object_at h other) as [[q v]|] eqn:Ho; simpl; [|done].
    intros [= <- <-].
    set (h1 := {| objects := <[other := Some {| m_queue := 0; m_version := 0 |}]> (objects h);
                  calls := calls h |}).
    exists {| m_queue := q; m_version := v |}, {| m_queue := q; m_version := v |},
      {| m_queue := 0; m_version := 0 |}.
    split; [done|].
    split; [apply (object_at_allocate {| m_queue := q; m_version := v |} [] h1)|].
    split; [apply queue_eq_refl|].
    split; [|reflexivity].
    apply (object_at_allocate_old {| m_queue := q; m_version := v |} [] h1).
    by eapply (object_at_insert_eq h).
  - intros h this_ other h'. unfold move_assign.
    destruct (object_at h this_) as [t|] eqn:Ht; simpl; [|done].
    destruct (object_at h other) as [[q v]|] eqn:Ho; simpl; [|done].
    match goal with |- context [object_at ?h1 other] =>
      destruct (object_at h1 other) as [o1|] eqn:Ho1 end; simpl; [|done].
    intros [= <-]. exists {| m_queue := 0; m_version := m_version o1 |}.
    split; [|reflexivity].
    eapply object_at_insert_eq; [exact Ho1 | reflexivity].
  - reflexivity.
Qed.

Lemma copies_compare_equal_witness :
  (exists t o, object_at sample_heap 0 = Some t /\ object_at sample_heap 0 = Some o /\
     queue_eq t o = true) /\
  (exists s,
     object_at {| objects := [Some {| m_queue := 7; m_version := 120 |};
                              Some {| m_queue := 0; m_version := 0 |}];
                  calls := [clReleaseCommandQueue 7] |} 1 = Some s /\
     queue_eq s {| m_queue := 0; m_version := 0 |} = true).
Proof.
  destruct copies_compare_equal as (_ & Hca & _ & Hma & _).
  split.
  - exact (Hca sample_heap 0%nat 0%nat sample_heap eq_refl).
  - exact (Hma sample_heap 0%nat 1%nat _ eq_refl).
Defined.

(** ** Which elements the walk visits *)

Lemma elem_of_region_elements (v : visit) (p : pointer) (o0 o1 o2 r0 r1 r2 : size_t)
    (row_pitch slice_pitch element_size : size_t) :
  v ∈ region_elements p (o0, o1, o2) (r0, r1, r2) row_pitch slice_pitch element_size
  <-> exists kd kh kw,
        0 <= kd < r2 /\ 0 <= kh < r1 /\ 0 <= kw < r0 /\
        v = {| visit_pElem := p + kd * slice_pitch + kh * row_pitch + kw * element_size;
               visit_w := o0 + kw; visit_h := o1 + kh; visit_d := o2 + kd |}.
Proof.
  unfold region_elements. rewrite list_elem_of_bind. split.
  - intros (kd & Hv & Hkd). apply list_elem_of_bind in Hv as (kh & Hv & Hkh).
    apply list_elem_of_bind in Hv as (kw & Hv & Hkw).
    apply list_elem_of_singleton in Hv.
    apply elem_of_seqZ in Hkd, Hkh, Hkw.
    exists kd, kh, kw. repeat split; try lia. exact Hv.
  - intros (kd & kh & kw & Hkd & Hkh & Hkw & ->).
    exists kd. split; [|apply elem_of_seqZ; lia].
    apply list_elem_of_bind. exists kh. split; [|apply elem_of_seqZ; lia].
    apply list_elem_of_bind. exists kw. split; [|apply elem_of_seqZ; lia].
    by apply list_elem_of_singleton.
Qed.

(** X11.  The per-element function is only ever called with coordinates
    [(w, h, d)] inside the box [origin3 <= (w, h, d) < region3], each such
    coordinate is visited, and the pointer passed with it is the base
    pointer advanced by [w - origin3[0]] elements, [h - origin3[1]] rows
    and [d - origin3[2]] slices.  When [region3[i] <= origin3[i]] on some
    axis the function is not called at all. *)
Theorem walk_image_visits_exactly_the_box (v : visit) (p : pointer)
    (o0 o1 o2 r0 r1 r2 : size_t) (row_pitch slice_pitch element_size : size_t) :
  (v ∈ walk_image p (o0, o1, o2) (r0, r1, r2) row_pitch slice_pitch element_size
   <-> (o0 <= visit_w v < r0 /\ o1 <= visit_h v < r1 /\ o2 <= visit_d v < r2 /\
        visit_pElem v = p + (visit_d v - o2) * slice_pitch
                          + (visit_h v - o1) * row_pitch
                          + (visit_w v - o0) * element_size)) /\
  (r0 <= o0 \/ r1 <= o1 \/ r2 <= o2 ->
   walk_image p (o0, o1, o2) (r0, r1, r2) row_pitch slice_pitch element_size = []).
Proof.
  rewrite walk_image_visits_box. split.
  - rewrite elem_of_region_elements. split.
    + intros (kd & kh & kw & Hkd & Hkh & Hkw & ->). cbn.
      repeat split; lia.
    + intros (Hw & Hh & Hd & Hp). destruct v as [pe w h d]. cbn in *.
      exists (d - o2), (h - o1), (w - o0). repeat split; try lia.
      subst pe. f_equal; lia.
  - intros Hempty. apply elem_of_nil_inv. intros v' Hv'.
    apply elem_of_region_elements in Hv' as (kd & kh & kw & Hkd & Hkh & Hkw & _). lia.
Qed.

Lemma walk_image_visits_exactly_the_box_witness :
  walk_image 4096 (2, 0, 0) (2, 1, 1) 64 1024 4 = [].
Proof.
  apply (proj2 (walk_image_visits_exactly_the_box
                  {| visit_pElem := 0; visit_w := 0; visit_h := 0; visit_d := 0 |}
                  4096 2 0 0 2 1 1 64 1024 4)).
  left. lia.
Defined.

(** ** The walk, synchronous and asynchronous *)

Lemma synchronous_walk_run
    (be : backend) (image : image_object) (flags : Z) (origin3 region3 : size3)
    (events : wait_list) (st : state) :
  m_queue (this st) <> 0 ->
  image_context image = queue_context be (m_queue (this st)) ->
  let q := m_queue (this st) in
  let c := clEnqueueMapImage q (image_get image) true flags origin3 region3 events false in
  let r := respond be (log st) c in
  let vs := walk_image (mapped r) origin3 region3 (row_pitch_out r) (slice_pitch_out r)
              (image_element_size image) in
  let u := clEnqueueUnmapMemObject q (image_get image) (mapped r) [] false in
  let log1 := log st ++ [c] ++ map walk_elemets vs in
  let ru := respond be log1 u in
  (status r <> CL_SUCCESS ->
   enqueue_walk_image be image flags (Some origin3) (Some region3) events None st
   = (Thrown (opencl_error (status r)), {| this := this st; log := log st ++ [c] |})) /\
  (status r = CL_SUCCESS ->
   enqueue_walk_image be image flags (Some origin3) (Some region3) events None st
   = (if status ru =? CL_SUCCESS then Returned None
      else Thrown (opencl_error (status ru)),
      {| this := this st; log := log1 ++ [u] |})).
Proof.
  intros Hq Hctx q c r vs u log1 ru. unfold ru, log1, u, vs, r, c, q in *.
  clear ru log1 u vs r c q.
  unfold enqueue_walk_image, enqueue_map_image, enqueue_unmap_buffer,
    enqueue_unmap_mem_object, call_walk_elemets, image_as_memory_object.
  unfold bind, get_m_queue, get_context, BOOST_ASSERT, check_ret, cl, ret,
    BOOST_THROW_EXCEPTION.
  cbn [mem_context mem_get blocking_flag event_ptr event_written].
  split; intros Hs.
  - repeat (rewrite ?(nonzero_true _ Hq), ?Hctx, ?Z.eqb_refl;
            cbn beta iota; cbn [this log negb]).
    apply Z.eqb_neq in Hs. rewrite Hs. reflexivity.
  - repeat (rewrite ?(nonzero_true _ Hq), ?Hctx, ?Z.eqb_refl, ?Hs;
            cbn beta iota;
            cbn [this log negb map_pointer map_row_pitch map_slice_pitch]).
    rewrite <- !app_assoc. cbn [app].
    match goal with |- context [?x =? CL_SUCCESS] => destruct (x =? CL_SUCCESS) end;
      reflexivity.
Qed.

(** X12.  A synchronous [enqueue_walk_image] on a valid queue first maps
    the region, blocking.  If the map is rejected, the status is thrown,
    the function has not been called and nothing is unmapped.  If it
    succeeds, the function is called on the elements in walk order and the
    image is then unmapped with an empty wait list; a rejected unmap is
    thrown only after all those calls have been made. *)
Theorem synchronous_walk_structure
    (be : backend) (image : image_object) (flags : Z) (origin3 region3 : size3)
    (events : wait_list) (st : state) :
  m_queue (this st) <> 0 ->
  image_context image = queue_context be (m_queue (this st)) ->
  let q := m_queue (this st) in
  let c := clEnqueueMapImage q (image_get image) true flags origin3 region3 events false in
  let r := respond be (log st) c in
  let vs := walk_image (mapped r) origin3 region3 (row_pitch_out r) (slice_pitch_out r)
              (image_element_size image) in
  let u := clEnqueueUnmapMemObject q (image_get image) (mapped r) [] false in
  let log1 := log st ++ [c] ++ map walk_elemets vs in
  let ru := respond be log1 u in
  (status r <> CL_SUCCESS ->
   enqueue_walk_image be image flags (Some origin3) (Some region3) events None st
   = (Thrown (opencl_error (status r)), {| this := this st; log := log st ++ [c] |})) /\
  (status r = CL_SUCCESS ->
   enqueue_walk_image be image flags (Some origin3) (Some region3) events None st
   = (if status ru =? CL_SUCCESS then Returned None
      else Thrown (opencl_error (status ru)),
      {| this := this st; log := log1 ++ [u] |})).
Proof. exact (synchronous_walk_run be image flags origin3 region3 events st). Qed.

Lemma synchronous_walk_structure_witness :
  enqueue_walk_image (sample_backend 120 (-5)) sample_image map_write
    (Some (0, 0, 0)) (Some (2, 1, 1)) [] None (sample_queue 120)
  = (Thrown (opencl_error (-5)),
     {| this := {| m_queue := 7; m_version := 120 |};
        log := [clEnqueueMapImage 7 17 true map_write (0, 0, 0) (2, 1, 1) [] false] |}) /\
  fst (enqueue_walk_image (sample_backend 120 0) sample_image map_write
         (Some (0, 0, 0)) (Some (2, 1, 1)) [] None (sample_queue 120))
  = Returned None.
Proof.
  destruct (synchronous_walk_structure (sample_backend 120 (-5)) sample_image map_write
              (0, 0, 0) (2, 1, 1) [] (sample_queue 120)) as [Hfail _];
    [simpl; lia | reflexivity |].
  destruct (synchronous_walk_structure (sample_backend 120 0) sample_image map_write
              (0, 0, 0) (2, 1, 1) [] (sample_queue 120)) as [_ Hok];
    [simpl; lia | reflexivity |].
  split.
  - apply Hfail. vm_compute. lia.
  - refine (eq_trans (f_equal fst (Hok eq_refl)) _). reflexivity.
Defined.

(** X13.  An asynchronous [enqueue_walk_image] never calls the function
    itself, whatever the driver answers.  On a valid queue, once the user
    event is created and the non-blocking map accepted, it registers the
    walk as the callback of the map's event; when the driver accepts the
    registration it enqueues the unmap behind the user event that the
    callback completes, and the event returned is the one the driver
    produced for the unmap; when the driver rejects the registration, the
    status is thrown and no unmap is enqueued. *)
Theorem asynchronous_walk_structure
    (be : backend) (image : image_object) (flags : Z) (origin3 region3 : size3)
    (events : wait_list) (e : event) (st : state) :
  Forall (fun c => is_walk c = false)
    (issued st (snd (enqueue_walk_image be image flags (Some origin3) (Some region3)
                       events (Some e) st))) /\
  (m_queue (this st) <> 0 ->
   image_context image = queue_context be (m_queue (this st)) ->
   let q := m_queue (this st) in
   let cu := clCreateUserEvent (queue_context be q) in
   let user_ev := event_out (respond be (log st) cu) in
   let cm := clEnqueueMapImage q (image_get image) false flags origin3 region3 events true in
   let rm := respond be (log st ++ [cu]) cm in
   let cb := clSetEventCallback (event_out rm)
               (walk_image (mapped rm) origin3 region3 (row_pitch_out rm)
                  (slice_pitch_out rm) (image_element_size image)) user_ev in
   let rb := respond be (log st ++ [cu; cm]) cb in
   let u := clEnqueueUnmapMemObject q (image_get image) (mapped rm) [user_ev] true in
   let ru := respond be (log st ++ [cu; cm; cb]) u in
   let run := enqueue_walk_image be image flags (Some origin3) (Some region3) events
                (Some e) st in
   user_ev <> 0 -> status rm = CL_SUCCESS ->
   (status rb = CL_SUCCESS ->
    run = (if status ru =? CL_SUCCESS then Returned (Some (event_out ru))
           else Thrown (opencl_error (status ru)),
           {| this := this st; log := log st ++ [cu; cm; cb; u] |})) /\
   (status rb <> CL_SUCCESS ->
    run = (Thrown (opencl_error (status rb)),
           {| this := this st; log := log st ++ [cu; cm; cb] |}))).
Proof.
  split.
  - unfold enqueue_walk_image, enqueue_map_image, enqueue_unmap_buffer,
      enqueue_unmap_mem_object, create_user_event, set_callback, image_as_memory_object.
    run_method; issued_of_run; repeat constructor.
  - intros Hq Hctx q cu user_ev cm rm cb rb u ru run Hu Hs.
    unfold run, ru, u, rb, cb, rm, cm, user_ev, cu, q in *.
    clear run ru u rb cb rm cm user_ev cu q.
    unfold enqueue_walk_image, enqueue_map_image, enqueue_unmap_buffer,
      enqueue_unmap_mem_object, create_user_event, set_callback, image_as_memory_object.
    unfold bind, get_m_queue, get_context, BOOST_ASSERT, check_ret, cl, ret,
      BOOST_THROW_EXCEPTION.
    cbn [mem_context mem_get blocking_flag event_ptr event_written].
    apply Z.eqb_neq in Hu.
    repeat (rewrite ?(nonzero_true _ Hq), ?Hctx, ?Z.eqb_refl, ?Hu, ?Hs;
            cbn beta iota;
            cbn [this log negb map_pointer map_row_pitch map_slice_pitch map_event
                 default event_written]).
    rewrite <- !app_assoc. cbn [app]. unfold id.
    split.
    + intros Hb. rewrite Hb. cbn [Z.eqb negb CL_SUCCESS]. cbn beta iota.
      repeat (rewrite ?(nonzero_true _ Hq), ?Hctx, ?Z.eqb_refl;
              cbn beta iota; cbn [this log negb]).
      rewrite <- !app_assoc. cbn [app].
      match goal with
      | |- context [if negb (?x =? CL_SUCCESS) then _ else _] =>
          match goal with
          | |- _ = (if ?y =? CL_SUCCESS then _ else _, _) => change y with x
          end
      end.
      match goal with |- context [?x =? CL_SUCCESS] => destruct (x =? CL_SUCCESS) end;
        reflexivity.
    + intros Hb. apply Z.eqb_neq in Hb. rewrite Hb. reflexivity.
Qed.

Lemma asynchronous_walk_structure_witness :
  enqueue_walk_image (sample_backend 120 0) sample_image map_write
    (Some (0, 0, 0)) (Some (2, 1, 1)) [3] (Some 0) (sample_queue 120)
  = (Returned (Some 41),
     {| this := {| m_queue := 7; m_version := 120 |};
        log := [clCreateUserEvent 5;
                clEnqueueMapImage 7 17 false map_write (0, 0, 0) (2, 1, 1) [3] true;
                clSetEventCallback 41
                  [{| visit_pElem := 4096; visit_w := 0; visit_h := 0; visit_d := 0 |};
                   {| visit_pElem := 4100; visit_w := 1; visit_h := 0; visit_d := 0 |}] 41;
                clEnqueueUnmapMemObject 7 17 4096 [41] true] |}).
Proof.
  refine (proj1 (proj2 (asynchronous_walk_structure (sample_backend 120 0) sample_image
                          map_write (0, 0, 0) (2, 1, 1) [3] 0 (sample_queue 120))
                   _ _ _ _) _).
  - simpl. lia.
  - reflexivity.
  - simpl. lia.
  - reflexivity.
  - reflexivity.
Defined.

(** ** The raw fill writes the colour into every element *)

Lemma for_loop_store (p : pointer) (c : Z -> Z) (n : nat) :
  forall (i : Z) (mem : memory) (a : pointer),
    for_loop n i (fun j m => store (p + j) (c j) m) mem a
    = if (p + i <=? a) && (a <? p + i + Z.of_nat n) then c (a - p) else mem a.
Proof.
  induction n as [|n IH]; intros i mem a.
  - cbn [for_loop]. destruct (Z.leb_spec (p + i) a), (Z.ltb_spec a (p + i + Z.of_nat 0));
      simpl; try reflexivity; lia.
  - cbn [for_loop]. rewrite IH. unfold store.
    destruct (Z.leb_spec (p + (i + 1)) a), (Z.ltb_spec a (p + (i + 1) + Z.of_nat n)),
      (Z.leb_spec (p + i) a), (Z.ltb_spec a (p + i + Z.of_nat (S n))),
      (Z.eqb_spec a (p + i));
      simpl; try reflexivity; try lia.
    f_equal. lia.
Qed.

Lemma fillc_call_spec (f : fillc) (p : pointer) (mem : memory) (a : pointer) :
  0 <= m_element_size f ->
  fillc_call f p mem a
  = if (p <=? a) && (a <? p + m_element_size f)
    then default 0 (m_fill_color f !! Z.to_nat (a - p))
    else mem a.
Proof.
  intros Hes. unfold fillc_call, for_range.
  rewrite (for_loop_store p (fun j => default 0 (m_fill_color f !! Z.to_nat j))).
  rewrite Z.sub_0_r, Z2Nat.id, Z.add_0_r by lia. reflexivity.
Qed.

Lemma run_walk_untouched (f : fillc) (vs : list visit) (a : pointer) :
  0 <= m_element_size f ->
  (forall v, v ∈ vs -> ~ (visit_pElem v <= a < visit_pElem v + m_element_size f)) ->
  forall mem, run_walk f vs mem a = mem a.
Proof.
  intros Hes. induction vs as [|v vs IH]; intros Hout mem; [reflexivity|].
  cbn [run_walk fold_left]. fold (run_walk f vs (fillc_call f (visit_pElem v) mem)).
  rewrite IH by (intros v' Hv'; apply Hout; by right).
  rewrite fillc_call_spec by done.
  specialize (Hout v ltac:(left)).
  destruct (Z.leb_spec (visit_pElem v) a),
    (Z.ltb_spec a (visit_pElem v + m_element_size f)); simpl; try reflexivity; lia.
Qed.

Lemma run_walk_written (f : fillc) (vs : list visit) (a : pointer) :
  0 <= m_element_size f ->
  forall mem,
    (exists v, v ∈ vs /\ visit_pElem v <= a < visit_pElem v + m_element_size f) ->
    exists v, v ∈ vs /\ visit_pElem v <= a < visit_pElem v + m_element_size f /\
      run_walk f vs mem a
      = default 0 (m_fill_color f !! Z.to_nat (a - visit_pElem v)).
Proof.
  intros Hes. induction vs as [|v vs IH]; intros mem (v0 & Hin & Hcov).
  - by apply elem_of_nil in Hin.
  - cbn [run_walk fold_left]. fold (run_walk f vs (fillc_call f (visit_pElem v) mem)).
    destruct (decide (Exists
                (fun v' => visit_pElem v' <= a < visit_pElem v' + m_element_size f) vs))
      as [Hex|Hnex].
    + apply Exists_exists in Hex as (v1 & Hin1 & Hcov1).
      apply list_elem_of_In in Hin1.
      destruct (IH (fillc_call f (visit_pElem v) mem)) as (v2 & Hin2 & Hcov2 & Heq);
        [exists v1; split; assumption|].
      exists v2. split; [by right|]. by split.
    + assert (v0 = v) as ->.
      { apply elem_of_cons in Hin as [->|Hin]; [done|].
        exfalso. apply Hnex, Exists_exists. exists v0.
        split; [by apply list_elem_of_In | done]. }
      exists v. split; [by left|]. split; [done|].
      rewrite run_walk_untouched; [|done|].
      * rewrite fillc_call_spec by done.
        destruct (Z.leb_spec (visit_pElem v) a),
          (Z.ltb_spec a (visit_pElem v + m_element_size f)); simpl; try reflexivity; lia.
      * intros v' Hv' Hc. apply Hnex, Exists_exists. exists v'.
        split; [by apply list_elem_of_In | done].
Qed.

(** Offsets inside a pitched 3D layout determine their indices. *)
Lemma pitched_offset_unique (es rp sp r0 r1 : Z) (kd kh kw i kd' kh' kw' i' : Z) :
  r0 * es <= rp -> r1 * rp <= sp ->
  0 <= kh < r1 -> 0 <= kw < r0 -> 0 <= i < es ->
  0 <= kh' < r1 -> 0 <= kw' < r0 -> 0 <= i' < es ->
  kd * sp + kh * rp + kw * es + i = kd' * sp + kh' * rp + kw' * es + i' ->
  i = i'.
Proof.
  intros Hrp Hsp Hkh Hkw Hi Hkh' Hkw' Hi' Heq.
  assert (0 <= kw * es + i < rp) as Hx by nia.
  assert (0 <= kw' * es + i' < rp) as Hx' by nia.
  assert (0 <= kh * rp + (kw * es + i) < sp) as Hy by nia.
  assert (0 <= kh' * rp + (kw' * es + i') < sp) as Hy' by nia.
  destruct (Z.div_mod_unique sp kd kd' (kh * rp + (kw * es + i))
              (kh' * rp + (kw' * es + i'))) as [_ Hy2]; [by left | by left | lia |].
  destruct (Z.div_mod_unique rp kh kh' (kw * es + i) (kw' * es + i'))
    as [_ Hx2]; [by left | by left | lia |].
  destruct (Z.div_mod_unique es kw kw' i i') as [_ Hi2]; [by left | by left | lia |].
  exact Hi2.
Qed.

(** X14.  Run over the walk of a region that starts at the zero origin,
    with pitches at least as large as a row and a slice of the region,
    [fillc] leaves in every element of the region the first
    [element_size] bytes of the fill colour, and leaves every byte outside
    those elements -- the padding between rows and slices included -- as
    it was. *)
Theorem rawfill_walk_fills_region (f : fillc) (base : pointer) (r0 r1 r2 : size_t)
    (row_pitch slice_pitch : size_t) (mem : memory) :
  let es := m_element_size f in
  let mem' := run_walk f (walk_image base (0, 0, 0) (r0, r1, r2) row_pitch slice_pitch es)
                mem in
  0 < es <= Z.of_nat (length (m_fill_color f)) ->
  r0 * es <= row_pitch -> r1 * row_pitch <= slice_pitch ->
  (forall kd kh kw i,
     0 <= kd < r2 -> 0 <= kh < r1 -> 0 <= kw < r0 -> 0 <= i < es ->
     m_fill_color f !! Z.to_nat i
     = Some (mem' (base + kd * slice_pitch + kh * row_pitch + kw * es + i))) /\
  (forall a,
     (forall kd kh kw i,
        0 <= kd < r2 -> 0 <= kh < r1 -> 0 <= kw < r0 -> 0 <= i < es ->
        a <> base + kd * slice_pitch + kh * row_pitch + kw * es + i) ->
     mem' a = mem a).
Proof.
  intros es mem' Hes Hrp Hsp. subst mem'. rewrite walk_image_from_zero. split.
  - intros kd kh kw i Hkd Hkh Hkw Hi.
    set (a := base + kd * slice_pitch + kh * row_pitch + kw * es + i).
    destruct (run_walk_written f
                (region_elements base (0, 0, 0) (r0, r1, r2) row_pitch slice_pitch es)
                a ltac:(unfold es in *; lia) mem) as (v & Hin & Hcov & Heq).
    { exists {| visit_pElem := base + kd * slice_pitch + kh * row_pitch + kw * es;
                visit_w := 0 + kw; visit_h := 0 + kh; visit_d := 0 + kd |}.
      split; [|cbn; unfold a; fold es; lia].
      apply elem_of_region_elements. by exists kd, kh, kw. }
    apply elem_of_region_elements in Hin as (kd' & kh' & kw' & Hkd' & Hkh' & Hkw' & ->).
    cbn [visit_pElem] in *. fold es in Hcov.
    assert (i = a - (base + kd' * slice_pitch + kh' * row_pitch + kw' * es)) as Hi'.
    { eapply (pitched_offset_unique es row_pitch slice_pitch r0 r1 kd kh kw i kd' kh' kw');
        try done; unfold a; lia. }
    rewrite Heq, <- Hi'.
    destruct (m_fill_color f !! Z.to_nat i) as [b|] eqn:Hb; [reflexivity|].
    apply lookup_ge_None in Hb. lia.
  - intros a Hout. apply run_walk_untouched; [unfold es in *; lia|].
    intros v Hin Hcov.
    apply elem_of_region_elements in Hin as (kd & kh & kw & Hkd & Hkh & Hkw & ->).
    cbn [visit_pElem] in Hcov. fold es in Hcov.
    apply (Hout kd kh kw (a - (base + kd * slice_pitch + kh * row_pitch + kw * es)));
      try done; lia.
Qed.

Lemma rawfill_walk_fills_region_witness :
  let f := fillc_make 4 [10; 20; 30; 40; 50; 60; 70; 80; 90; 100; 110; 120; 130; 140; 150; 160] in
  let mem' := run_walk f (walk_image 4096 (0, 0, 0) (2, 1, 1) 64 1024 4) (fun _ => 0) in
  m_fill_color f !! 2%nat = Some (mem' 4102) /\ mem' 4104 = 0.
Proof.
  intros f mem'.
  destruct (rawfill_walk_fills_region f 4096 2 1 1 64 1024 (fun _ => 0)) as [Hin Hout];
    [simpl; lia | simpl; lia | simpl; lia |].
  split.
  - apply (Hin 0 0 0 2); unfold f; simpl; lia.
  - apply Hout. intros kd kh kw i Hkd Hkh Hkw Hi. unfold f in *. simpl in *. lia.
Defined.

(** ** The overloads on extents *)

Lemma copy_extents_product (e : list size_t) :
  (length e <= 3)%nat ->
  let '(a, b, c) := copy_extents e (1, 1, 1) in a * b * c = product e.
Proof.
  destruct e as [|x [|y [|z [|? ?]]]]; cbn; intros; lia.
Qed.

Lemma copy_extents_nonneg (e : list size_t) (init : size3) :
  Forall (fun x => 0 <= x) e ->
  (let '(a, b, c) := init in 0 <= a /\ 0 <= b /\ 0 <= c) ->
  let '(a, b, c) := copy_extents e init in 0 <= a /\ 0 <= b /\ 0 <= c.
Proof.
  destruct init as [[a b] c]. intros He Hi.
  destruct e as [|x [|y [|z ?]]]; cbn;
    repeat match goal with H : Forall _ (_ :: _) |- _ => apply Forall_cons_1 in H as [? H] end;
    lia.
Qed.

Lemma copy_extents_zero (e : list size_t) :
  Forall (fun x => x = 0) e -> copy_extents e (0, 0, 0) = (0, 0, 0).
Proof.
  intros He. destruct e as [|x [|y [|z ?]]]; cbn;
    repeat match goal with H : Forall _ (_ :: _) |- _ => apply Forall_cons_1 in H as [-> H] end;
    reflexivity.
Qed.

Lemma count_walks (vs : list visit) : count is_walk (map walk_elemets vs) = Z.of_nat (length vs).
Proof. induction vs as [|v vs IH]; simpl; [done | rewrite IH; lia]. Qed.

(** X15.  The raw fill called with extents of at most three non-negative
    entries and a zero origin, synchronously on a valid queue whose driver
    accepts the map, calls the fill function exactly once per element of
    the region: as many times as the product of the entries, the missing
    dimensions counting as 1. *)
Theorem rawfill_extents_calls_once_per_element
    (be : backend) (image : image_object) (fill_color : pointer)
    (origin region : list size_t) (events : wait_list) (st : state) :
  (length region <= 3)%nat ->
  Forall (fun x => 0 <= x) region ->
  Forall (fun x => x = 0) origin ->
  m_queue (this st) <> 0 ->
  image_context image = queue_context be (m_queue (this st)) ->
  status (respond be (log st)
            (clEnqueueMapImage (m_queue (this st)) (image_get image) true map_write
               (0, 0, 0) (copy_extents region (1, 1, 1)) events false)) = CL_SUCCESS ->
  count is_walk
    (issued st (snd (enqueue_rawfill_image_walking_extents be image fill_color
                       origin region events None st)))
  = product region.
Proof.
  intros Hlen Hpos Hzero Hq Hctx Hs.
  unfold enqueue_rawfill_image_walking_extents, enqueue_rawfill_image_walking,
    bind at 1, bind at 1, get_context, BOOST_ASSERT.
  rewrite Hctx, Z.eqb_refl. cbn beta iota. rewrite (copy_extents_zero origin Hzero).
  destruct (synchronous_walk_run be image map_write (0, 0, 0)
              (copy_extents region (1, 1, 1)) events st Hq Hctx) as [_ Hok].
  rewrite (Hok Hs). cbn [snd].
  rewrite <- !app_assoc, issued_app. rewrite !count_app, count_walks.
  rewrite walk_image_from_zero.
  pose proof (copy_extents_product region Hlen) as Hprod.
  pose proof (copy_extents_nonneg region (1, 1, 1) Hpos ltac:(simpl; lia)) as Hnn.
  destruct (copy_extents region (1, 1, 1)) as [[r0 r1] r2].
  rewrite region_elements_length by lia. cbn [count is_walk]. lia.
Qed.

Lemma rawfill_extents_calls_once_per_element_witness :
  count is_walk
    (issued (sample_queue 120)
       (snd (enqueue_rawfill_image_walking_extents (sample_backend 120 0) sample_image 64
               [0; 0] [3; 2] [] None (sample_queue 120))))
  = product [3; 2].
Proof.
  apply rawfill_extents_calls_once_per_element.
  - simpl. lia.
  - repeat constructor; lia.
  - repeat constructor.
  - simpl. lia.
  - reflexivity.
  - reflexivity.
Defined.

(** X16.  For one dimension the [extents] overload of
    [enqueue_nd_range_kernel] and [enqueue_1d_range_kernel] are the same
    operation: same assertions, same call -- a local size of 0 becoming a
    null pointer in both -- same outcome. *)
Theorem nd_range_extents_one_dimension
    (be : backend) (kernel_ : kernel) (offset global_size local_size : size_t)
    (events : wait_list) (event_ : option event) (st : state) :
  enqueue_nd_range_kernel_extents be kernel_ [offset] [global_size] [local_size]
    events event_ st
  = enqueue_1d_range_kernel be kernel_ offset global_size local_size events event_ st.
Proof.
  unfold enqueue_nd_range_kernel_extents, enqueue_1d_range_kernel, nonzero.
  cbn [length lookup list_lookup default]. unfold id.
  change (Z.of_nat 1) with 1.
  by destruct (local_size =? 0).
Qed.

(** ** Cloning a buffer *)

(** X17.  [buffer::clone] on a valid queue in the buffer's context, with
    the new buffer created in that context and of the same size, never
    stops on an assertion: it submits one copy of the whole buffer, offsets
    0, and returns the new buffer unless the driver rejects the copy, in
    which case the status is thrown. *)
Theorem buffer_clone_copies_whole_buffer
    (be : backend) (self copy : buffer) (st : state) :
  m_queue (this st) <> 0 ->
  buffer_context self = queue_context be (m_queue (this st)) ->
  buffer_context copy = buffer_context self ->
  buffer_size copy = buffer_size self ->
  0 <= buffer_size self < SIZE_MODULUS ->
  let c := clEnqueueCopyBuffer (m_queue (this st)) (buffer_get self) (buffer_get copy)
             0 0 (buffer_size self) [] false in
  let r := respond be (log st) c in
  buffer_clone be self copy st
  = (if status r =? CL_SUCCESS then Returned copy else Thrown (opencl_error (status r)),
     {| this := this st; log := log st ++ [c] |}).
Proof.
  intros Hq Hctx Hcc Hsz Hrange c r. unfold r, c. clear r c.
  unfold buffer_clone, enqueue_copy_buffer, bind, get_m_queue, get_context, BOOST_ASSERT,
    check_ret, cl, ret, BOOST_THROW_EXCEPTION, size_add.
  cbn [event_ptr event_written].
  rewrite Z.add_0_l, Z.mod_small by lia.
  repeat (rewrite ?(nonzero_true _ Hq), ?Hsz, ?Hcc, ?Hctx, ?Z.leb_refl, ?Z.eqb_refl;
          cbn beta iota; cbn [this log]).
  match goal with |- context [?x =? CL_SUCCESS] => destruct (x =? CL_SUCCESS) end;
    reflexivity.
Qed.

Lemma buffer_clone_copies_whole_buffer_witness :
  buffer_clone (sample_backend 120 0) sample_buffer
    {| buffer_get := 12; buffer_size := 10; buffer_context := 5 |} (sample_queue 120)
  = (Returned {| buffer_get := 12; buffer_size := 10; buffer_context := 5 |},
     {| this := {| m_queue := 7; m_version := 120 |};
        log := [clEnqueueCopyBuffer 7 11 12 0 0 10 [] false] |}).
Proof.
  apply (buffer_clone_copies_whole_buffer (sample_backend 120 0) sample_buffer
           {| buffer_get := 12; buffer_size := 10; buffer_context := 5 |}
           (sample_queue 120)).
  - simpl. lia.
  - reflexivity.
  - reflexivity.
  - reflexivity.
  - vm_compute. split; [discriminate | reflexivity].
Defined.

(** ** Range assertions and wrap-around *)

Lemma size_add_wrapped (a b : size_t) :
  0 <= a < SIZE_MODULUS -> 0 <= b < SIZE_MODULUS ->
  size_add a b = if a + b <? SIZE_MODULUS then a + b else a + b - SIZE_MODULUS.
Proof.
  intros Ha Hb. unfold size_add. destruct (Z.ltb_spec (a + b) SIZE_MODULUS).
  - apply Z.mod_small. lia.
  - replace (a + b) with ((a + b - SIZE_MODULUS) + 1 * SIZE_MODULUS) at 1 by lia.
    rewrite Z.mod_add by (unfold SIZE_MODULUS; lia). apply Z.mod_small. lia.
Qed.

(** X18.  On a valid queue in the buffer's context, [enqueue_map_buffer]
    stops on its range assertion exactly when the end of the range,
    [offset + size] computed on [size_t], exceeds the buffer size.  For a
    range whose end does not wrap this is the mathematical test; for one
    whose end wraps, the wrapped end is compared, so the assertion passes
    whenever that wrapped end lies within the buffer.  Whenever the
    assertion passes, the map is submitted and the pointer the driver
    mapped is returned, or the driver's status thrown. *)
Theorem map_buffer_range_assertion
    (be : backend) (b : buffer) (flags : Z) (offset size : size_t)
    (events : wait_list) (event_ : option event) (st : state) :
  m_queue (this st) <> 0 ->
  buffer_context b = queue_context be (m_queue (this st)) ->
  0 <= offset < SIZE_MODULUS -> 0 <= size < SIZE_MODULUS ->
  let run := enqueue_map_buffer be b flags offset size events event_ st in
  let c := clEnqueueMapBuffer (m_queue (this st)) (buffer_get b) (blocking_flag event_)
             flags offset size events (event_ptr event_) in
  let r := respond be (log st) c in
  (offset + size < SIZE_MODULUS ->
   (fst run = AssertionFailed <-> buffer_size b < offset + size)) /\
  (SIZE_MODULUS <= offset + size ->
   (fst run = AssertionFailed <-> buffer_size b < offset + size - SIZE_MODULUS)) /\
  (fst run <> AssertionFailed ->
   run = (if status r =? CL_SUCCESS then Returned (mapped r, event_written event_ r)
          else Thrown (opencl_error (status r)),
          {| this := this st; log := log st ++ [c] |})).
Proof.
  intros Hq Hctx Ho Hs run c r. unfold run, r, c. clear run r c.
  unfold enqueue_map_buffer, bind, get_m_queue, get_context, BOOST_ASSERT,
    check_ret, cl, ret, BOOST_THROW_EXCEPTION.
  rewrite (nonzero_true _ Hq). cbn beta iota.
  rewrite (size_add_wrapped offset size Ho Hs).
  destruct (Z.ltb_spec (offset + size) SIZE_MODULUS) as [Hw|Hw];
    match goal with |- context [?x <=? buffer_size b] =>
      destruct (Z.leb_spec x (buffer_size b)) end;
    cbn beta iota; rewrite ?Hctx, ?Z.eqb_refl; cbn beta iota;
    try match goal with |- context [?x =? CL_SUCCESS] => destruct (x =? CL_SUCCESS) end;
    cbn [negb fst]; cbn beta iota;
    (split; [intros ?; split; [try discriminate; intros _; lia | try lia; intros _; try reflexivity]|]);
    (split; [intros ?; split; [try discriminate; intros _; lia | try lia; intros _; try reflexivity]|]);
    intros Hna; first [reflexivity | by destruct Hna].
Qed.

Lemma map_buffer_range_assertion_witness :
  (fst (enqueue_map_buffer (sample_backend 120 0) sample_buffer map_read 8 4 [] None
          (sample_queue 120)) = AssertionFailed <-> buffer_size sample_buffer < 8 + 4) /\
  (fst (enqueue_map_buffer (sample_backend 120 0) sample_buffer map_read
          (SIZE_MODULUS - 1) 2 [] None (sample_queue 120)) = AssertionFailed
   <-> buffer_size sample_buffer < SIZE_MODULUS - 1 + 2 - SIZE_MODULUS).
Proof.
  split.
  - refine (proj1 (map_buffer_range_assertion (sample_backend 120 0) sample_buffer map_read
                     8 4 [] None (sample_queue 120) _ _ _ _) _);
      try reflexivity; unfold SIZE_MODULUS; simpl; lia.
  - refine (proj1 (proj2 (map_buffer_range_assertion (sample_backend 120 0) sample_buffer
                            map_read (SIZE_MODULUS - 1) 2 [] None (sample_queue 120)
                            _ _ _ _)) _);
      try reflexivity; unfold SIZE_MODULUS; simpl; lia.
Defined.

(** ** Markers and barriers *)

(** X19.  [enqueue_marker] makes no assertion.  It resolves the version
    and issues one call: [clEnqueueMarkerWithWaitList] with an empty wait
    list from version 120 on, the older [clEnqueueMarker] below; the event
    is returned when the driver accepts the call and its status thrown
    otherwise.  The nullary [enqueue_barrier] chooses between
    [clEnqueueBarrierWithWaitList] and [clEnqueueBarrier] at the same
    threshold. *)
Theorem marker_and_barrier_dispatch
    (be : backend) (event_ : option event) (st st' : state) (v : Z) :
  get_version be st = (Returned v, st') ->
  (let q := m_queue (this st) in
   let c := if 120 <=? v then clEnqueueMarkerWithWaitList q [] (event_ptr event_)
            else clEnqueueMarker q (event_ptr event_) in
   let r := respond be (log st') c in
   enqueue_marker be event_ st
   = (if status r =? CL_SUCCESS then Returned (event_written event_ r)
      else Thrown (opencl_error (status r)),
      {| this := this st'; log := log st' ++ [c] |})) /\
  (m_queue (this st) <> 0 ->
   snd (enqueue_barrier be st)
   = {| this := this st';
        log := log st' ++ [if 120 <=? v
                           then clEnqueueBarrierWithWaitList (m_queue (this st)) [] false
                           else clEnqueueBarrier (m_queue (this st))] |}).
Proof.
  intros Hg. split.
  - cbv zeta. unfold enqueue_marker, bind, get_m_queue. rewrite Hg.
    destruct (120 <=? v); unfold cl, check_ret, BOOST_THROW_EXCEPTION, ret;
      cbn beta iota;
      match goal with |- context [?x =? CL_SUCCESS] => destruct (x =? CL_SUCCESS) end;
      reflexivity.
  - intros Hq. unfold enqueue_barrier, bind, get_m_queue, BOOST_ASSERT.
    rewrite (nonzero_true _ Hq). cbn beta iota. rewrite Hg.
    destruct (120 <=? v); reflexivity.
Qed.

Lemma marker_and_barrier_dispatch_witness :
  enqueue_marker (sample_backend 110 0) (Some 0) (sample_queue 0)
  = (Returned (Some 41),
     {| this := {| m_queue := 7; m_version := 110 |};
        log := [device_get_version 7; clEnqueueMarker 7 true] |}) /\
  snd (enqueue_barrier (sample_backend 120 0) (sample_queue 120))
  = {| this := {| m_queue := 7; m_version := 120 |};
       log := [clEnqueueBarrierWithWaitList 7 [] false] |}.
Proof.
  split.
  - exact (proj1 (marker_and_barrier_dispatch (sample_backend 110 0) (Some 0)
                    (sample_queue 0) _ 110 eq_refl)).
  - refine (proj2 (marker_and_barrier_dispatch (sample_backend 120 0) None
                     (sample_queue 120) _ 120 eq_refl) _).
    simpl. lia.
Defined.

(** X20.  The [extents<N>] overloads of [enqueue_fill_image] and
    [enqueue_map_image] ([N <= 3]) assert the image's context before
    anything else.  When the contexts differ they stop on that assertion
    with the queue object untouched, where the pointer overload of
    [enqueue_fill_image] on a device below 1.2 throws [CL_INVALID_DEVICE]
    instead; when the contexts agree they behave as the pointer overloads
    on the three-element arrays in which the missing origin entries are
    [0] and the missing region entries are [1]. *)
Theorem image_extents_overloads_check_context_first
    (be : backend) (image : image_object) (fill_color : pointer) (flags : Z)
    (origin region : list size_t)
    (events : wait_list) (event_ : option event) (st st' : state) (v : Z) :
  length origin = length region -> (length origin <= 3)%nat ->
  get_version be st = (Returned v, st') ->
  let origin3 := (nth 0 origin 0, nth 1 origin 0, nth 2 origin 0) in
  let region3 := (nth 0 region 1, nth 1 region 1, nth 2 region 1) in
  (image_context image <> queue_context be (m_queue (this st)) ->
   enqueue_fill_image_extents be image fill_color origin region events event_ st
   = (AssertionFailed, st) /\
   enqueue_map_image_extents be image flags origin region events event_ st
   = (AssertionFailed, st) /\
   (v < 120 ->
    enqueue_fill_image be image fill_color origin3 region3 events event_ st
    = (Thrown (opencl_error CL_INVALID_DEVICE), st'))) /\
  (image_context image = queue_context be (m_queue (this st)) ->
   enqueue_fill_image_extents be image fill_color origin region events event_ st
   = enqueue_fill_image be image fill_color origin3 region3 events event_ st /\
   enqueue_map_image_extents be image flags origin region events event_ st
   = enqueue_map_image be image flags origin3 region3 events event_ st).
Proof.
  intros Hlen HN Hg origin3 region3.
  assert (Ho : copy_extents origin (0, 0, 0) = origin3).
  { unfold origin3. clear. by destruct origin as [|? [|? [|? ?]]]. }
  assert (Hr : copy_extents region (1, 1, 1) = region3).
  { unfold region3. clear. by destruct region as [|? [|? [|? ?]]]. }
  unfold enqueue_fill_image_extents, enqueue_map_image_extents.
  rewrite Ho, Hr.
  set (F := enqueue_fill_image be image fill_color origin3 region3 events event_).
  set (G := enqueue_map_image be image flags origin3 region3 events event_).
  unfold bind, get_context, BOOST_ASSERT.
  split.
  - intros Hne.
    destruct (Z.eqb_spec (image_context image) (queue_context be (m_queue (this st))))
      as [He|_]; [done|].
    split; [reflexivity | split; [reflexivity |]].
    intros Hv. unfold F, enqueue_fill_image, bind. rewrite Hg.
    destruct (Z.ltb_spec v 120); [reflexivity | lia].
  - intros He. rewrite He, Z.eqb_refl. by split.
Qed.

Lemma image_extents_overloads_check_context_first_witness :
  enqueue_fill_image_extents (sample_backend 120 0) sample_image 0 [1; 2] [3; 4] [] None
    (sample_queue 120)
  = (Returned None,
     {| this := {| m_queue := 7; m_version := 120 |};
        log := [clEnqueueFillImage 7 17 0 (1, 2, 0) (3, 4, 1) [] false] |}).
Proof.
  refine (eq_trans (proj1 (proj2 (image_extents_overloads_check_context_first
            (sample_backend 120 0) sample_image 0 0 [1; 2] [3; 4] [] None
            (sample_queue 120) (sample_queue 120) 120 eq_refl _ eq_refl) eq_refl)) _).
  - simpl. lia.
  - reflexivity.
Defined.

(** X21.  [enqueue_copy_buffer] checks both ranges with their offsets:
    for ranges whose ends do not wrap on [size_t], the copy is submitted
    exactly when the queue is valid, [src_offset + size] lies within the
    source buffer, [dst_offset + size] within the destination buffer, and
    both buffers are in the queue's context; in every other case the
    method stops on an assertion with no driver call made. *)
Theorem copy_buffer_submitted_iff_in_range
    (be : backend) (src_buffer dst_buffer : buffer)
    (src_offset dst_offset size : size_t)
    (events : wait_list) (event_ : option event) (st : state) :
  0 <= src_offset -> 0 <= dst_offset -> 0 <= size ->
  src_offset + size < SIZE_MODULUS -> dst_offset + size < SIZE_MODULUS ->
  let run := enqueue_copy_buffer be src_buffer dst_buffer src_offset dst_offset size
               events event_ st in
  let c := clEnqueueCopyBuffer (m_queue (this st)) (buffer_get src_buffer)
             (buffer_get dst_buffer) src_offset dst_offset size events
             (event_ptr event_) in
  let r := respond be (log st) c in
  let checks :=
    m_queue (this st) <> 0 /\
    src_offset + size <= buffer_size src_buffer /\
    dst_offset + size <= buffer_size dst_buffer /\
    buffer_context src_buffer = queue_context be (m_queue (this st)) /\
    buffer_context dst_buffer = queue_context be (m_queue (this st)) in
  (checks ->
   run = (if status r =? CL_SUCCESS then Returned (event_written event_ r)
          else Thrown (opencl_error (status r)),
          {| this := this st; log := log st ++ [c] |})) /\
  (~ checks -> run = (AssertionFailed, st)).
Proof.
  intros Hso Hdo Hsz Hs Hd run c r checks. unfold run, r, c, checks. clear run r c checks.
  unfold enqueue_copy_buffer, bind, get_m_queue, get_context, BOOST_ASSERT,
    check_ret, cl, ret, BOOST_THROW_EXCEPTION.
  rewrite (size_add_wrapped src_offset size), (size_add_wrapped dst_offset size) by lia.
  destruct (Z.ltb_spec (src_offset + size) SIZE_MODULUS); [|lia].
  destruct (Z.ltb_spec (dst_offset + size) SIZE_MODULUS); [|lia].
  unfold nonzero.
  destruct (Z.eqb_spec (m_queue (this st)) 0) as [Hq|Hq]; cbn [negb]; cbn beta iota.
  { split; [intros [? _]; done | reflexivity]. }
  destruct (Z.leb_spec (src_offset + size) (buffer_size src_buffer)); cbn beta iota.
  2: { split; [intros (_ & ? & _); lia | reflexivity]. }
  destruct (Z.leb_spec (dst_offset + size) (buffer_size dst_buffer)); cbn beta iota.
  2: { split; [intros (_ & _ & ? & _); lia | reflexivity]. }
  destruct (Z.eqb_spec (buffer_context src_buffer) (queue_context be (m_queue (this st))));
    cbn beta iota.
  2: { split; [intros (_ & _ & _ & ? & _); done | reflexivity]. }
  destruct (Z.eqb_spec (buffer_context dst_buffer) (queue_context be (m_queue (this st))));
    cbn beta iota.
  2: { split; [intros (_ & _ & _ & _ & ?); done | reflexivity]. }
  split.
  - intros _.
    match goal with |- context [?x =? CL_SUCCESS] => destruct (x =? CL_SUCCESS) end;
      reflexivity.
  - intros Hn. destruct Hn. repeat split; assumption.
Qed.

Lemma copy_buffer_submitted_iff_in_range_witness :
  enqueue_copy_buffer (sample_backend 110 0) sample_buffer sample_buffer 6 0 4 [] None
    (sample_queue 110)
  = (Returned None,
     {| this := {| m_queue := 7; m_version := 110 |};
        log := [clEnqueueCopyBuffer 7 11 11 6 0 4 [] false] |}).
Proof.
  refine (proj1 (copy_buffer_submitted_iff_in_range (sample_backend 110 0)
            sample_buffer sample_buffer 6 0 4 [] None (sample_queue 110)
            _ _ _ _ _) _).
  - lia.
  - lia.
  - lia.
  - vm_compute. reflexivity.
  - vm_compute. reflexivity.
  - simpl. repeat split; lia.
Defined.
